(** * A WebAssembly binary encoder (src/main.ts), embedded in Rocq

    The TypeScript program builds the bytes of a WebAssembly module out of
    small composable encoders: LEB128 integers, length-prefixed vectors,
    sections, limits, exports, instructions and function bodies.  This file
    embeds those encoders as Rocq functions and states the properties of the
    specification about them. *)

From Stdlib Require Import ZArith String Ascii List Bool Lia Sorted.
From coqutil Require Import Z.bitblast.
Import ListNotations.
Local Open Scope Z_scope.

(** ** JavaScript numbers

    A JavaScript [number] is a double.  The encoders only ever ask whether a
    number is an integer ([Number.isInteger]), whether it is truthy, and
    compute on integer values, so a number is modelled by its value class:
    an integer, a finite non-integer, NaN or an infinity.  A finite
    non-integer is [ipart + fnum / (fnum + fden)] with [ipart] its floor: the
    fraction lies strictly between 0 and 1 by construction, so no value of
    [Frac] is an integer. *)
Inductive number : Type :=
| Int (z : Z)
| Frac (ipart : Z) (fnum fden : positive)
| NaN
| Infinity
| NegInfinity.

(** [Number.isInteger(n)], returning the integer when there is one. *)
Definition isInteger (n : number) : option Z :=
  match n with
  | Int z => Some z
  | _ => None
  end.

(** Truthiness of a number in a condition: zero and NaN are falsy. *)
Definition truthy (n : number) : bool :=
  match n with
  | Int z => negb (z =? 0)
  | NaN => false
  | _ => true
  end.

(** ** Outcomes of a call

    A call returns a value, throws, or (in the model only) exhausts the fuel
    of one of the two loops; the theorems below show the last never
    happens. *)
Inductive exn : Type :=
| RangeError (culprit : number).

Inductive outcome (A : Type) : Type :=
| Ok (a : A)
| Throw (e : exn)
| OutOfFuel.
Arguments Ok {A} a.
Arguments Throw {A} e.
Arguments OutOfFuel {A}.

Definition bind {A B : Type} (c : outcome A) (k : A -> outcome B) : outcome B :=
  match c with
  | Ok a => k a
  | Throw e => Throw e
  | OutOfFuel => OutOfFuel
  end.

Notation "x <- c ;; k" := (bind c (fun x => k))
  (at level 61, c at next level, right associativity).

(** ** 32-bit integer operators of JavaScript on integer values *)
Definition ToInt32 (z : Z) : Z := (z + 2 ^ 31) mod 2 ^ 32 - 2 ^ 31.

(** [a & b] *)
Definition js_and (a b : Z) : Z := Z.land (ToInt32 a) (ToInt32 b).
(** [a | b] *)
Definition js_or (a b : Z) : Z := Z.lor (ToInt32 a) (ToInt32 b).
(** [a >> k], the sign-propagating shift; the count is taken modulo 32. *)
Definition js_sar (a k : Z) : Z := Z.shiftr (ToInt32 a) (k mod 32).

(** ** LEB128 *)

(** Iterations granted to each loop; [leb_fuel_enough_U] and
    [leb_fuel_enough_S] show that no integer uses them up. *)
Definition leb_fuel : nat := 8.

(** The [while (n > 0x7f)] loop of [encodeLEB128U] and the final push. *)
Fixpoint encodeLEB128U_loop (fuel : nat) (n : Z) (buffer : list number)
  : option (list number) :=
  match fuel with
  | O => None
  | S fuel' =>
      if 0x7f <? n
      then encodeLEB128U_loop fuel' (js_sar n 7)
             (buffer ++ [Int (js_or (js_and n 0x7f) 0x80)])
      else Some (buffer ++ [Int n])
  end.

Definition encodeLEB128U (n : number) : outcome (list number) :=
  match isInteger n with
  | None => Throw (RangeError n)
  | Some z =>
      match encodeLEB128U_loop leb_fuel z [] with
      | Some buffer => Ok buffer
      | None => OutOfFuel
      end
  end.

(** The [while (true)] loop of [encodeLEB128S]. *)
Fixpoint encodeLEB128S_loop (fuel : nat) (n : Z) (buffer : list number)
  : option (list number) :=
  match fuel with
  | O => None
  | S fuel' =>
      let byte := js_and n 0x7f in
      let n := js_sar n 7 in
      if ((n =? 0) && (js_and byte 0x40 =? 0))
         || ((n =? -1) && negb (js_and byte 0x40 =? 0))
      then Some (buffer ++ [Int byte])
      else encodeLEB128S_loop fuel' n (buffer ++ [Int (js_or byte 0x80)])
  end.

Definition encodeLEB128S (n : number) : outcome (list number) :=
  match isInteger n with
  | None => Throw (RangeError n)
  | Some z =>
      match encodeLEB128S_loop leb_fuel (js_or z 0) [] with
      | Some buffer => Ok buffer
      | None => OutOfFuel
      end
  end.

(** ** The preamble and the value types *)
Definition encodePreamble : list number :=
  map Int [0x00; 0x61; 0x73; 0x6d; 0x01; 0x00; 0x00; 0x00].

Module NumType.
Inductive t : Type := i32 | i64 | f32 | f64.
Definition value (x : t) : Z :=
  match x with
  | i32 => 0x7f
  | i64 => 0x7e
  | f32 => 0x7d
  | f64 => 0x7c
  end.
End NumType.

Module RefType.
Inductive t : Type := funcRef | externRef.
Definition value (x : t) : Z :=
  match x with
  | funcRef => 0x70
  | externRef => 0x6f
  end.
End RefType.

(** [type ValueType = RefType | NumType] *)
Inductive ValueType : Type :=
| Ref (r : RefType.t)
| Num (n : NumType.t).

(** The number a [ValueType] is at run time. *)
Definition ValueType_value (v : ValueType) : Z :=
  match v with
  | Ref r => RefType.value r
  | Num n => NumType.value n
  end.

(** ** Vectors and sections *)
Section FlatMap.
Context {T : Type}.
Variable encodeFn : T -> outcome (list number).

(** [items.flatMap(encodeFn)]: the items are encoded in order and the
    first exception ends the call. *)
Fixpoint flatMap (items : list T) : outcome (list number) :=
  match items with
  | [] => Ok []
  | item :: rest =>
      head <- encodeFn item ;;
      tail <- flatMap rest ;;
      Ok (head ++ tail)
  end.
End FlatMap.

Definition encodeVector {T : Type} (items : list T)
    (encodeFn : T -> outcome (list number)) : outcome (list number) :=
  len <- encodeLEB128U (Int (Z.of_nat (length items))) ;;
  body <- flatMap (fun item => encodeFn item) items ;;
  Ok (len ++ body).

Definition encodeSection {T : Type} (id : number) (items : list T)
    (encodeFn : T -> outcome (list number)) : outcome (list number) :=
  bytes <- encodeVector items encodeFn ;;
  len <- encodeLEB128U (Int (Z.of_nat (length bytes))) ;;
  Ok (id :: len ++ bytes).

Record FuncType : Type := {
  paramTypes : list ValueType;
  returnTypes : list ValueType
}.

Definition encodeFuncType (funcType : FuncType) : outcome (list number) :=
  params <- encodeVector (paramTypes funcType)
              (fun a => Ok [Int (ValueType_value a)]) ;;
  returns <- encodeVector (returnTypes funcType)
               (fun a => Ok [Int (ValueType_value a)]) ;;
  Ok (Int 0x60 :: params ++ returns).

Definition encodeTypeSection (types : list FuncType) : outcome (list number) :=
  encodeSection (Int 1) types encodeFuncType.

Definition encodeFuncSection (typeIndicies : list number)
  : outcome (list number) :=
  encodeSection (Int 3) typeIndicies encodeLEB128U.

(** ** Limits and the memory section *)
Record Limits : Type := {
  min : number;
  max : option number   (* [max?: number] *)
}.

(** [if (limits.max)] is taken when the field is there and truthy. *)
Definition encodeLimits (limits : Limits) : outcome (list number) :=
  match max limits with
  | Some m =>
      if truthy m
      then lo <- encodeLEB128U (min limits) ;;
           hi <- encodeLEB128U m ;;
           Ok (Int 0x01 :: lo ++ hi)
      else lo <- encodeLEB128U (min limits) ;;
           Ok (Int 0x00 :: lo)
  | None =>
      lo <- encodeLEB128U (min limits) ;;
      Ok (Int 0x00 :: lo)
  end.

Definition encodeMemorySection (memories : list Limits)
  : outcome (list number) :=
  encodeSection (Int 5) memories encodeLimits.

(** ** Exports *)
Module ExportType.
Inductive t : Type := Function | Table | Memory | Global.
Definition value (x : t) : Z :=
  match x with
  | Function => 0
  | Table => 1
  | Memory => 2
  | Global => 3
  end.
End ExportType.

Record Export : Type := {
  name : string;
  type : ExportType.t;
  index : number
}.

(** [(new TextEncoder()).encode(s)].  A [string] of Rocq is a sequence of
    8-bit characters and stands for the UTF-8 text of the JavaScript string,
    so encoding lists its bytes. *)
Definition TextEncoder_encode (s : string) : list number :=
  map (fun c => Int (Z.of_N (N_of_ascii c))) (list_ascii_of_string s).

Definition encodeExport (exportEntry : Export) : outcome (list number) :=
  let nameBytes := TextEncoder_encode (name exportEntry) in
  len <- encodeLEB128U (Int (Z.of_nat (length nameBytes))) ;;
  idx <- encodeLEB128U (index exportEntry) ;;
  Ok (len ++ nameBytes ++ Int (ExportType.value (type exportEntry)) :: idx).

Definition encodeExportSection (exports : list Export)
  : outcome (list number) :=
  encodeSection (Int 7) exports encodeExport.

(** ** Instructions *)
Set Warnings "-register-all".

Module InstrType.
Inductive t : Type :=
| If | BrIf | Return | Call | Drop | I32Load | I32Const | I32GtS | I32Eq
| I32Add | I32Mul | I32DivU | LocalGet | LocalSet | LocalTee.
Definition value (x : t) : Z :=
  match x with
  | If => 0x04
  | BrIf => 0x0d
  | Return => 0x0f
  | Call => 0x10
  | Drop => 0x1a
  | I32Load => 0x28
  | I32Const => 0x41
  | I32GtS => 0x4a
  | I32Eq => 0x46
  | I32Add => 0x6a
  | I32Mul => 0x6c
  | I32DivU => 0x6e
  | LocalGet => 0x20
  | LocalSet => 0x21
  | LocalTee => 0x22
  end.
End InstrType.

(** The tagged tuples of [type Instruction], one constructor per shape. *)
Inductive Instruction : Type :=
| iI32Load (align offset : number)
| iI32Const (n : number)
| iI32GtS
| iI32Eq
| iI32Add
| iI32Mul
| iI32DivU
| iLocalGet (i : number)
| iLocalSet (i : number)
| iLocalTee (i : number)
| iDrop
| iBrIf (l : number)
| iReturn
| iCall (f : number)
| iIf (t : ValueType) (thenInstrs elseInstrs : list Instruction).

(** [instruction[0]] *)
Definition tag (instruction : Instruction) : InstrType.t :=
  match instruction with
  | iI32Load _ _ => InstrType.I32Load
  | iI32Const _ => InstrType.I32Const
  | iI32GtS => InstrType.I32GtS
  | iI32Eq => InstrType.I32Eq
  | iI32Add => InstrType.I32Add
  | iI32Mul => InstrType.I32Mul
  | iI32DivU => InstrType.I32DivU
  | iLocalGet _ => InstrType.LocalGet
  | iLocalSet _ => InstrType.LocalSet
  | iLocalTee _ => InstrType.LocalTee
  | iDrop => InstrType.Drop
  | iBrIf _ => InstrType.BrIf
  | iReturn => InstrType.Return
  | iCall _ => InstrType.Call
  | iIf _ _ _ => InstrType.If
  end.

Definition opcode (instruction : Instruction) : number :=
  Int (InstrType.value (tag instruction)).

Fixpoint encodeInstruction (instruction : Instruction)
  : outcome (list number) :=
  match instruction with
  | iI32Load align offset =>
      a <- encodeLEB128U align ;;
      o <- encodeLEB128U offset ;;
      Ok (opcode instruction :: a ++ o)
  | iI32GtS | iI32Eq | iI32Add | iI32Mul | iI32DivU | iReturn | iDrop =>
      Ok [opcode instruction]
  | iI32Const n =>
      c <- encodeLEB128S n ;;
      Ok (opcode instruction :: c)
  | iLocalGet i | iLocalSet i | iLocalTee i | iBrIf i | iCall i =>
      c <- encodeLEB128U i ;;
      Ok (opcode instruction :: c)
  | iIf t thenInstrs elseInstrs =>
      thenBytes <- flatMap encodeInstruction thenInstrs ;;
      elseBytes <- flatMap encodeInstruction elseInstrs ;;
      Ok (opcode instruction :: Int (ValueType_value t)
            :: thenBytes ++ Int 0x05 :: elseBytes ++ [Int 0x0b])
  end.

(** ** Function bodies and the code section *)
Record FuncBody : Type := {
  locals : list (number * ValueType);
  instructions : list Instruction
}.

Definition encodeFuncBody (body : FuncBody) : outcome (list number) :=
  decls <- encodeVector (locals body)
             (fun '(count, type) =>
                c <- encodeLEB128U count ;;
                Ok (c ++ [Int (ValueType_value type)])) ;;
  code <- flatMap encodeInstruction (instructions body) ;;
  let encodedBody := decls ++ code ++ [Int 0x0b] in
  len <- encodeLEB128U (Int (Z.of_nat (length encodedBody))) ;;
  Ok (len ++ encodedBody).

Definition encodeCodeSection (bodies : list FuncBody) : outcome (list number) :=
  encodeSection (Int 10) bodies encodeFuncBody.

(** ** The module *)

(** [new Uint8Array(array)] stores each number modulo 256, after truncation
    towards zero; NaN and the infinities are stored as 0. *)
Definition ToUint8 (n : number) : Z :=
  match n with
  | Int z => z mod 256
  | Frac ipart _ _ => (if ipart <? 0 then ipart + 1 else ipart) mod 256
  | NaN | Infinity | NegInfinity => 0
  end.

Definition Uint8Array_of (array : list number) : list Z := map ToUint8 array.

(** [NumType.i32] used as a [ValueType]. *)
Definition i32 : ValueType := Num NumType.i32.

Definition encodeModule (_ : unit) : outcome (list Z) :=
  types <- encodeTypeSection
    [{| paramTypes := [i32; i32; i32; i32]; returnTypes := [i32] |}] ;;
  funcs <- encodeFuncSection [Int 0] ;;
  mems <- encodeMemorySection [{| min := Int 1; max := None |}] ;;
  exports <- encodeExportSection
    [{| name := "binarySearch"; type := ExportType.Function; index := Int 0 |};
     {| name := "memory"; type := ExportType.Memory; index := Int 0 |}] ;;
  code <- encodeCodeSection
    [{| locals := [(Int 2, i32)];
        instructions :=
          [iLocalGet (Int 2);
           iLocalGet (Int 3);
           iI32Add;
           iI32Const (Int 2);
           iI32DivU;
           iLocalTee (Int 4);
           iLocalGet (Int 4);
           iLocalGet (Int 0);
           iI32Add;
           iI32Const (Int 4);
           iI32Mul;
           iI32Load (Int 0) (Int 0);
           iLocalTee (Int 5);
           iLocalGet (Int 1);
           iI32Eq;
           iBrIf (Int 0);
           iDrop;
           iI32Const (Int (-1));
           iLocalGet (Int 4);
           iLocalGet (Int 2);
           iI32Eq;
           iBrIf (Int 0);
           iDrop;
           iLocalGet (Int 1);
           iLocalGet (Int 5);
           iI32GtS;
           iIf i32
             [iLocalGet (Int 0);
              iLocalGet (Int 1);
              iLocalGet (Int 4);
              iLocalGet (Int 3);
              iCall (Int 0)]
             [iLocalGet (Int 0);
              iLocalGet (Int 1);
              iLocalGet (Int 2);
              iLocalGet (Int 4);
              iCall (Int 0)]] |}] ;;
  Ok (Uint8Array_of
        (encodePreamble ++ types ++ funcs ++ mems ++ exports ++ code)).

(** ** Reference LEB128 decoders

    The program has no decoder; these are the textbook ones (an accumulator
    and a shift, seven payload bits per byte), used to state the round-trip
    properties.  Each returns the value and the bytes left over, and rejects
    an element that is not a byte. *)
Definition byte_of (x : number) : option Z :=
  match x with
  | Int b => if (0 <=? b) && (b <? 256) then Some b else None
  | _ => None
  end.

Fixpoint decodeUnsigned_from (result shift : Z) (bytes : list number)
  : option (Z * list number) :=
  match bytes with
  | [] => None
  | x :: rest =>
      match byte_of x with
      | None => None
      | Some b =>
          let result := Z.lor result (Z.shiftl (Z.land b 0x7f) shift) in
          if Z.land b 0x80 =? 0
          then Some (result, rest)
          else decodeUnsigned_from result (shift + 7) rest
      end
  end.

Definition decodeUnsigned (bytes : list number) : option (Z * list number) :=
  decodeUnsigned_from 0 0 bytes.

Fixpoint decodeSigned_from (result shift : Z) (bytes : list number)
  : option (Z * list number) :=
  match bytes with
  | [] => None
  | x :: rest =>
      match byte_of x with
      | None => None
      | Some b =>
          let result := Z.lor result (Z.shiftl (Z.land b 0x7f) shift) in
          if Z.land b 0x80 =? 0
          then Some (if Z.land b 0x40 =? 0
                     then result
                     else Z.lor result (Z.shiftl (-1) (shift + 7)),
                     rest)
          else decodeSigned_from result (shift + 7) rest
      end
  end.

Definition decodeSigned (bytes : list number) : option (Z * list number) :=
  decodeSigned_from 0 0 bytes.

(** Every byte but the last carries the continuation bit 0x80, and the last
    does not. *)
Inductive continued : list number -> Prop :=
| continued_last b :
    0 <= b < 256 -> Z.land b 0x80 = 0 -> continued [Int b]
| continued_more b rest :
    0 <= b < 256 -> Z.land b 0x80 = 0x80 -> continued rest ->
    continued (Int b :: rest).

Definition returns {A : Type} (c : outcome A) : Prop := exists a, c = Ok a.
Definition throws {A : Type} (c : outcome A) : Prop := exists e, c = Throw e.

(** The call ends: it returns or throws. *)
Definition ends {A : Type} (c : outcome A) : Prop := c <> OutOfFuel.

(** The exit test of the signed loop, on a 32-bit [n] taken before the
    shift: the group of seven bits about to be pushed is the last one. *)
Definition last_group (n : Z) : bool :=
  ((n / 128 =? 0) && (Z.land (Z.land n 0x7f) 0x40 =? 0))
  || ((n / 128 =? -1) && negb (Z.land (Z.land n 0x7f) 0x40 =? 0)).

(** ** Reference reader of instructions

    A reference reader of the instruction bytes, used to state that the
    else and end markers of nested conditionals pair up.  It reads a
    sequence of instructions up to the first marker at its own depth and
    returns the instructions, that marker and the bytes after it. *)
Definition ValueType_of_byte (b : Z) : option ValueType :=
  if b =? 0x7f then Some (Num NumType.i32)
  else if b =? 0x7e then Some (Num NumType.i64)
  else if b =? 0x7d then Some (Num NumType.f32)
  else if b =? 0x7c then Some (Num NumType.f64)
  else if b =? 0x70 then Some (Ref RefType.funcRef)
  else if b =? 0x6f then Some (Ref RefType.externRef)
  else None.

Definition with_unsigned (k : number -> Instruction) (bytes : list number)
  : option (Instruction * list number) :=
  match decodeUnsigned bytes with
  | Some (v, rest) => Some (k (Int v), rest)
  | None => None
  end.

Section ParseOne.
(** The reader of a nested sequence. *)
Variable parseSeq :
  list number -> option (list Instruction * Z * list number).

Definition parseOne (op : Z) (bytes : list number)
  : option (Instruction * list number) :=
  if op =? 0x04 then
    match bytes with
    | [] => None
    | x :: bytes =>
        match byte_of x with
        | None => None
        | Some b =>
            match ValueType_of_byte b with
            | None => None
            | Some t =>
                match parseSeq bytes with
                | Some (thenInstrs, stop, bytes) =>
                    if stop =? 0x05 then
                      match parseSeq bytes with
                      | Some (elseInstrs, stop, bytes) =>
                          if stop =? 0x0b
                          then Some (iIf t thenInstrs elseInstrs, bytes)
                          else None
                      | None => None
                      end
                    else None
                | None => None
                end
            end
        end
    end
  else if op =? 0x28 then
    match decodeUnsigned bytes with
    | Some (align, bytes) =>
        with_unsigned (fun offset => iI32Load (Int align) offset) bytes
    | None => None
    end
  else if op =? 0x41 then
    match decodeSigned bytes with
    | Some (v, rest) => Some (iI32Const (Int v), rest)
    | None => None
    end
  else if op =? 0x4a then Some (iI32GtS, bytes)
  else if op =? 0x46 then Some (iI32Eq, bytes)
  else if op =? 0x6a then Some (iI32Add, bytes)
  else if op =? 0x6c then Some (iI32Mul, bytes)
  else if op =? 0x6e then Some (iI32DivU, bytes)
  else if op =? 0x0f then Some (iReturn, bytes)
  else if op =? 0x1a then Some (iDrop, bytes)
  else if op =? 0x20 then with_unsigned iLocalGet bytes
  else if op =? 0x21 then with_unsigned iLocalSet bytes
  else if op =? 0x22 then with_unsigned iLocalTee bytes
  else if op =? 0x0d then with_unsigned iBrIf bytes
  else if op =? 0x10 then with_unsigned iCall bytes
  else None.
End ParseOne.

Fixpoint parseInstrs (fuel : nat) (bytes : list number)
  : option (list Instruction * Z * list number) :=
  match fuel with
  | O => None
  | S fuel' =>
      match bytes with
      | [] => None
      | x :: bytes =>
          match byte_of x with
          | None => None
          | Some op =>
              if (op =? 0x05) || (op =? 0x0b) then Some ([], op, bytes)
              else
                match parseOne (parseInstrs fuel') op bytes with
                | None => None
                | Some (instruction, bytes) =>
                    match parseInstrs fuel' bytes with
                    | Some (more, stop, bytes) =>
                        Some (instruction :: more, stop, bytes)
                    | None => None
                    end
                end
          end
      end
  end.

(** The instructions the reader can give back: unsigned immediates within
    31 bits, where [encodeLEB128U] is right, and constants within 32 bits
    signed. *)
Definition u31 (n : number) : bool :=
  match n with
  | Int z => (0 <=? z) && (z <? 2 ^ 31)
  | _ => false
  end.

Definition s32 (n : number) : bool :=
  match n with
  | Int z => (- 2 ^ 31 <=? z) && (z <? 2 ^ 31)
  | _ => false
  end.

Fixpoint encodable (instruction : Instruction) : bool :=
  match instruction with
  | iI32Load align offset => u31 align && u31 offset
  | iI32Const n => s32 n
  | iLocalGet i | iLocalSet i | iLocalTee i | iBrIf i | iCall i => u31 i
  | iIf _ thenInstrs elseInstrs =>
      forallb encodable thenInstrs && forallb encodable elseInstrs
  | _ => true
  end.

(** An instruction whose encoding the reader gives back. *)
Definition readable (instruction : Instruction) : Prop :=
  exists op more,
    encodeInstruction instruction = Ok (Int op :: more)
    /\ byte_of (Int op) = Some op
    /\ (op =? 0x05) || (op =? 0x0b) = false
    /\ forall fuel rest,
         (length more <= fuel)%nat ->
         parseOne (parseInstrs fuel) op (more ++ rest)
         = Some (instruction, rest).

Definition readable_seq (instrs : list Instruction) : Prop :=
  exists bytes,
    flatMap encodeInstruction instrs = Ok bytes
    /\ forall fuel stop rest,
         stop = 0x05 \/ stop = 0x0b ->
         (length bytes < fuel)%nat ->
         parseInstrs fuel (bytes ++ Int stop :: rest)
         = Some (instrs, stop, rest).

Definition nested_example : Instruction :=
  iIf i32
    [iLocalGet (Int 5);
     iIf i32 [iI32Const (Int 5)]
       [iI32Const (Int 11); iDrop; iLocalGet (Int 11)]]
    [iIf i32 [] [iIf i32 [iI32Const (Int (-1))] [iLocalGet (Int 300)]]].

(** A reference reader of the section framing [id, length, payload]. *)
Fixpoint parseSections (fuel : nat) (bytes : list number)
  : option (list (Z * list number)) :=
  match fuel with
  | O => None
  | S fuel' =>
      match bytes with
      | [] => Some []
      | x :: bytes =>
          match byte_of x with
          | None => None
          | Some id =>
              match decodeUnsigned bytes with
              | None => None
              | Some (len, bytes) =>
                  if Z.of_nat (length bytes) <? len then None
                  else
                    match parseSections fuel'
                            (skipn (Z.to_nat len) bytes) with
                    | Some more =>
                        Some ((id, firstn (Z.to_nat len) bytes) :: more)
                    | None => None
                    end
              end
          end
      end
  end.

Definition section_ids (bytes : list Z) : option (list Z) :=
  option_map (map fst) (parseSections (S (length bytes)) (map Int bytes)).

(** The module the program describes, part by part. *)
Definition binarySearch_type : FuncType :=
  {| paramTypes := [i32; i32; i32; i32]; returnTypes := [i32] |}.

Definition binarySearch_memory : Limits := {| min := Int 1; max := None |}.

Definition binarySearch_exports : list Export :=
  [{| name := "binarySearch"; type := ExportType.Function; index := Int 0 |};
   {| name := "memory"; type := ExportType.Memory; index := Int 0 |}].

Definition binarySearch_body : FuncBody :=
  {| locals := [(Int 2, i32)];
     instructions :=
       [iLocalGet (Int 2); iLocalGet (Int 3); iI32Add;
        iI32Const (Int 2); iI32DivU; iLocalTee (Int 4);
        iLocalGet (Int 4); iLocalGet (Int 0); iI32Add;
        iI32Const (Int 4); iI32Mul; iI32Load (Int 0) (Int 0);
        iLocalTee (Int 5); iLocalGet (Int 1); iI32Eq; iBrIf (Int 0);
        iDrop; iI32Const (Int (-1));
        iLocalGet (Int 4); iLocalGet (Int 2); iI32Eq; iBrIf (Int 0);
        iDrop; iLocalGet (Int 1); iLocalGet (Int 5); iI32GtS;
        iIf i32
          [iLocalGet (Int 0); iLocalGet (Int 1); iLocalGet (Int 4);
           iLocalGet (Int 3); iCall (Int 0)]
          [iLocalGet (Int 0); iLocalGet (Int 1); iLocalGet (Int 2);
           iLocalGet (Int 4); iCall (Int 0)]] |}.

(** The same module assembled by hand from the binary format. *)
Definition wasm_preamble : list Z :=
  [0x00; 0x61; 0x73; 0x6d;    (* the magic, a NUL and the letters asm *)
   0x01; 0x00; 0x00; 0x00].   (* version 1 *)

Definition wasm_type_section : list Z :=
  [0x01; 0x09;                            (* id 1, 9 bytes *)
   0x01;                                  (* one type *)
   0x60; 0x04; 0x7f; 0x7f; 0x7f; 0x7f;    (* func, four i32 parameters *)
   0x01; 0x7f].                           (* one i32 result *)

Definition wasm_function_section : list Z :=
  [0x03; 0x02;    (* id 3, 2 bytes *)
   0x01; 0x00].   (* one function, of type 0 *)

Definition wasm_memory_section : list Z :=
  [0x05; 0x03;          (* id 5, 3 bytes *)
   0x01; 0x00; 0x01].   (* one memory, no maximum, 1 page at least *)

Definition wasm_export_section : list Z :=
  [0x07; 0x19;    (* id 7, 25 bytes *)
   0x02;          (* two exports *)
   0x0c; 0x62; 0x69; 0x6e; 0x61; 0x72; 0x79;   (* 12 bytes, binary *)
   0x53; 0x65; 0x61; 0x72; 0x63; 0x68;         (* Search *)
   0x00; 0x00;                                 (* function 0 *)
   0x06; 0x6d; 0x65; 0x6d; 0x6f; 0x72; 0x79;   (* 6 bytes, memory *)
   0x02; 0x00].                                (* memory 0 *)

Definition wasm_code_section : list Z :=
  [0x0a; 0x4a;          (* id 10, 74 bytes *)
   0x01;                (* one body *)
   0x48;                (* of 72 bytes *)
   0x01; 0x02; 0x7f;    (* one run of 2 locals of type i32 *)
   0x20; 0x02; 0x20; 0x03; 0x6a; 0x41; 0x02; 0x6e; 0x22; 0x04;
   0x20; 0x04; 0x20; 0x00; 0x6a; 0x41; 0x04; 0x6c; 0x28; 0x00; 0x00;
   0x22; 0x05; 0x20; 0x01; 0x46; 0x0d; 0x00;
   0x1a; 0x41; 0x7f;
   0x20; 0x04; 0x20; 0x02; 0x46; 0x0d; 0x00;
   0x1a; 0x20; 0x01; 0x20; 0x05; 0x4a;
   0x04; 0x7f;
     0x20; 0x00; 0x20; 0x01; 0x20; 0x04; 0x20; 0x03; 0x10; 0x00;
   0x05;
     0x20; 0x00; 0x20; 0x01; 0x20; 0x02; 0x20; 0x04; 0x10; 0x00;
   0x0b;
   0x0b].

Definition binarySearch_wasm : list Z :=
  wasm_preamble ++ wasm_type_section ++ wasm_function_section
    ++ wasm_memory_section ++ wasm_export_section ++ wasm_code_section.

(** ** Reference readers of types, limits and exports

    Like the decoders above these are not part of the program; they read
    back what the encoders write and serve to state round trips. *)
Definition ExportType_of_byte (b : Z) : option ExportType.t :=
  if b =? 0 then Some ExportType.Function
  else if b =? 1 then Some ExportType.Table
  else if b =? 2 then Some ExportType.Memory
  else if b =? 3 then Some ExportType.Global
  else None.

Fixpoint parseValueTypes (count : nat) (bytes : list number)
  : option (list ValueType * list number) :=
  match count with
  | O => Some ([], bytes)
  | S count' =>
      match bytes with
      | [] => None
      | x :: bytes =>
          match byte_of x with
          | None => None
          | Some b =>
              match ValueType_of_byte b with
              | None => None
              | Some t =>
                  match parseValueTypes count' bytes with
                  | Some (ts, bytes) => Some (t :: ts, bytes)
                  | None => None
                  end
              end
          end
      end
  end.

Definition parseValueTypeVector (bytes : list number)
  : option (list ValueType * list number) :=
  match decodeUnsigned bytes with
  | Some (count, bytes) => parseValueTypes (Z.to_nat count) bytes
  | None => None
  end.

Definition parseFuncType (bytes : list number)
  : option (FuncType * list number) :=
  match bytes with
  | [] => None
  | x :: bytes =>
      match byte_of x with
      | None => None
      | Some b =>
          if b =? 0x60 then
            match parseValueTypeVector bytes with
            | Some (params, bytes) =>
                match parseValueTypeVector bytes with
                | Some (results, bytes) =>
                    Some ({| paramTypes := params; returnTypes := results |},
                          bytes)
                | None => None
                end
            | None => None
            end
          else None
      end
  end.

Definition parseLimits (bytes : list number) : option (Limits * list number) :=
  match bytes with
  | [] => None
  | x :: bytes =>
      match byte_of x with
      | None => None
      | Some flag =>
          if flag =? 0x00 then
            match decodeUnsigned bytes with
            | Some (lo, bytes) =>
                Some ({| min := Int lo; max := None |}, bytes)
            | None => None
            end
          else if flag =? 0x01 then
            match decodeUnsigned bytes with
            | Some (lo, bytes) =>
                match decodeUnsigned bytes with
                | Some (hi, bytes) =>
                    Some ({| min := Int lo; max := Some (Int hi) |}, bytes)
                | None => None
                end
            | None => None
            end
          else None
      end
  end.

(** The maximum as [encodeLimits] sees it: a maximum that is 0 or NaN
    counts as none. *)
Definition effective_max (limits : Limits) : option number :=
  match max limits with
  | Some m => if truthy m then Some m else None
  | None => None
  end.

Fixpoint parseName (count : nat) (bytes : list number)
  : option (string * list number) :=
  match count with
  | O => Some (EmptyString, bytes)
  | S count' =>
      match bytes with
      | [] => None
      | x :: bytes =>
          match byte_of x with
          | None => None
          | Some b =>
              match parseName count' bytes with
              | Some (s, bytes) =>
                  Some (String (ascii_of_N (Z.to_N b)) s, bytes)
              | None => None
              end
          end
      end
  end.

Definition parseExport (bytes : list number) : option (Export * list number) :=
  match decodeUnsigned bytes with
  | None => None
  | Some (len, bytes) =>
      match parseName (Z.to_nat len) bytes with
      | None => None
      | Some (s, bytes) =>
          match bytes with
          | [] => None
          | x :: bytes =>
              match byte_of x with
              | None => None
              | Some b =>
                  match ExportType_of_byte b with
                  | None => None
                  | Some kind =>
                      match decodeUnsigned bytes with
                      | Some (idx, bytes) =>
                          Some ({| name := s; type := kind;
                                   index := Int idx |}, bytes)
                      | None => None
                      end
                  end
              end
          end
      end
  end.

(** ** Instructions with integer immediates, and a reader of bodies *)
Definition is_int (n : number) : bool :=
  match isInteger n with
  | Some _ => true
  | None => false
  end.

Fixpoint integral (instruction : Instruction) : bool :=
  match instruction with
  | iI32Load align offset => is_int align && is_int offset
  | iI32Const n => is_int n
  | iLocalGet i | iLocalSet i | iLocalTee i | iBrIf i | iCall i => is_int i
  | iIf _ thenInstrs elseInstrs =>
      forallb integral thenInstrs && forallb integral elseInstrs
  | _ => true
  end.

Fixpoint parseLocals (count : nat) (bytes : list number)
  : option (list (number * ValueType) * list number) :=
  match count with
  | O => Some ([], bytes)
  | S count' =>
      match decodeUnsigned bytes with
      | None => None
      | Some (n, bytes) =>
          match bytes with
          | [] => None
          | x :: bytes =>
              match byte_of x with
              | None => None
              | Some b =>
                  match ValueType_of_byte b with
                  | None => None
                  | Some t =>
                      match parseLocals count' bytes with
                      | Some (more, bytes) => Some ((Int n, t) :: more, bytes)
                      | None => None
                      end
                  end
              end
          end
      end
  end.

(** Reads the size, takes that many bytes for the body, and reads in them
    the local declarations and the instructions up to the closing 0x0b,
    which has to be the last byte of the body. *)
Definition parseFuncBody (bytes : list number)
  : option (FuncBody * list number) :=
  match decodeUnsigned bytes with
  | None => None
  | Some (size, bytes) =>
      if Z.of_nat (length bytes) <? size then None
      else
        let body := firstn (Z.to_nat size) bytes in
        let rest := skipn (Z.to_nat size) bytes in
        match decodeUnsigned body with
        | None => None
        | Some (count, body) =>
            match parseLocals (Z.to_nat count) body with
            | None => None
            | Some (decls, body) =>
                match parseInstrs (S (length body)) body with
                | Some (instrs, stop, []) =>
                    if stop =? 0x0b
                    then Some ({| locals := decls; instructions := instrs |},
                               rest)
                    else None
                | _ => None
                end
            end
        end
  end.

(** ** The binary search written in TypeScript

    [tsBinarySearch] compares numbers and computes on its bounds.  The
    comparisons are exact on every number.  The bounds are taken to be
    integers, as array indices are; [Math.floor((start + end) / 2)] is then
    the floor of the half sum, exactly so while the sum stays below [2^53]
    in magnitude, and the theorems keep the bounds within [2^52]. *)

(** [a == b] on two numbers. *)
Definition num_eq (a b : number) : bool :=
  match a, b with
  | Int x, Int y => x =? y
  | Frac i p q, Frac j r s => (i =? j) && (p * s =? r * q)%positive
  | Infinity, Infinity => true
  | NegInfinity, NegInfinity => true
  | _, _ => false
  end.

(** [a > b] on two numbers. *)
Definition num_gt (a b : number) : bool :=
  match a, b with
  | NaN, _ | _, NaN => false
  | Infinity, Infinity => false
  | Infinity, _ => true
  | _, Infinity => false
  | NegInfinity, _ => false
  | _, NegInfinity => true
  | Int x, Int y => y <? x
  | Int x, Frac j _ _ => j <? x
  | Frac i _ _, Int y => y <=? i
  | Frac i p q, Frac j r s =>
      (j <? i) || ((i =? j) && (r * q <? p * s)%positive)
  end.

(** [arr[i]] for an integer [i]: [undefined], here [None], outside the
    array. *)
Definition element (arr : list number) (i : Z) : option number :=
  if i <? 0 then None else nth_error arr (Z.to_nat i).

(** [n == arr[i]] and [n > arr[i]]; both are false against [undefined]. *)
Definition eq_element (n : number) (x : option number) : bool :=
  match x with
  | Some y => num_eq n y
  | None => false
  end.

Definition gt_element (n : number) (x : option number) : bool :=
  match x with
  | Some y => num_gt n y
  | None => false
  end.

(** The recursion of [tsBinarySearch], bounded by a fuel; [None] stands for
    a recursion that has not ended within it. *)
Fixpoint tsBinarySearch (fuel : nat) (arr : list number) (n : number)
    (start end_ : Z) : option Z :=
  match fuel with
  | O => None
  | S fuel' =>
      let mid := (start + end_) / 2 in
      if eq_element n (element arr mid) then Some mid
      else if mid =? start then Some (-1)
      else if gt_element n (element arr mid)
           then tsBinarySearch fuel' arr n mid end_
           else tsBinarySearch fuel' arr n start mid
  end.

(** ** Writing an array into the memory

    [writeArrayToMemory] views the memory as a [Uint32Array] and stores the
    numbers of [arr] from the cell [startIndex] on.  The view is modelled
    by the list of its cells.  [startIndex] is taken to be an integer;
    [startIndex + i] is then an integer too, and where the double sum is
    not exact it is far beyond the cells of any memory on either side. *)

(** What a [Uint32Array] keeps of a number: the integer part modulo
    [2^32], and 0 for NaN and the infinities. *)
Definition ToUint32 (n : number) : Z :=
  match n with
  | Int z => z mod 2 ^ 32
  | Frac ipart _ _ => (if ipart <? 0 then ipart + 1 else ipart) mod 2 ^ 32
  | NaN | Infinity | NegInfinity => 0
  end.

Fixpoint update (cells : list Z) (k : nat) (v : Z) : list Z :=
  match cells, k with
  | [], _ => []
  | _ :: cells, O => v :: cells
  | c :: cells, S k => c :: update cells k v
  end.

(** [buffer[i] = v]: an index outside the view is ignored. *)
Definition store (buffer : list Z) (i : Z) (v : number) : list Z :=
  if (0 <=? i) && (i <? Z.of_nat (length buffer))
  then update buffer (Z.to_nat i) (ToUint32 v)
  else buffer.

(** The loop, at index [i], with the elements of [arr] from [i] on. *)
Fixpoint writeArrayToMemory_from (i : Z) (arr : list number)
    (startIndex : Z) (buffer : list Z) : list Z :=
  match arr with
  | [] => buffer
  | x :: arr =>
      writeArrayToMemory_from (i + 1) arr startIndex
        (store buffer (startIndex + i) x)
  end.

Definition writeArrayToMemory (arr : list number) (startIndex : Z)
    (buffer : list Z) : list Z :=
  writeArrayToMemory_from 0 arr startIndex buffer.

(** A sequence of which every element is a byte. *)
Definition all_bytes (bytes : list number) : Prop :=
  Forall (fun x => byte_of x <> None) bytes.

(** * Properties *)

(** ** Integer and bit facts *)
Lemma ToInt32_small z : - 2 ^ 31 <= z < 2 ^ 31 -> ToInt32 z = z.
Proof. intros H. unfold ToInt32. rewrite Z.mod_small; lia. Qed.

Lemma ToInt32_range z : - 2 ^ 31 <= ToInt32 z < 2 ^ 31.
Proof.
  unfold ToInt32.
  pose proof (Z.mod_pos_bound (z + 2 ^ 31) (2 ^ 32) ltac:(lia)). lia.
Qed.

Lemma ToInt32_idem z : ToInt32 (ToInt32 z) = ToInt32 z.
Proof. apply ToInt32_small, ToInt32_range. Qed.

(** [ToInt32 n] is the one 32-bit signed integer congruent to [n]. *)
Lemma ToInt32_unique n m :
  - 2 ^ 31 <= m < 2 ^ 31 -> (n - m) mod 2 ^ 32 = 0 -> ToInt32 n = m.
Proof.
  intros Hm Hc. unfold ToInt32.
  apply Z.mod_divide in Hc; [| lia]. destruct Hc as [k Hk].
  replace (n + 2 ^ 31) with (m + 2 ^ 31 + k * 2 ^ 32) by lia.
  rewrite Z.mod_add by lia. rewrite Z.mod_small; lia.
Qed.

Lemma js_and_small n k :
  - 2 ^ 31 <= n < 2 ^ 31 -> - 2 ^ 31 <= k < 2 ^ 31 ->
  js_and n k = Z.land n k.
Proof. intros. unfold js_and. now rewrite !ToInt32_small. Qed.

Lemma js_or_small n k :
  - 2 ^ 31 <= n < 2 ^ 31 -> - 2 ^ 31 <= k < 2 ^ 31 ->
  js_or n k = Z.lor n k.
Proof. intros. unfold js_or. now rewrite !ToInt32_small. Qed.

Lemma js_sar_7 n : js_sar n 7 = ToInt32 n / 128.
Proof.
  unfold js_sar. change (7 mod 32) with 7.
  now rewrite Z.shiftr_div_pow2 by lia.
Qed.

Lemma low7_mod n : Z.land n 0x7f = n mod 128.
Proof. change 0x7f with (Z.ones 7). now rewrite Z.land_ones by lia. Qed.

Lemma low7_range n : 0 <= Z.land n 0x7f < 128.
Proof. rewrite low7_mod. apply Z.mod_pos_bound. lia. Qed.

Lemma bit7_clear x : 0 <= x < 128 -> Z.land x 0x80 = 0.
Proof.
  intros H. rewrite <- (Z.mod_small x 128), <- low7_mod by lia.
  rewrite <- Z.land_assoc. change (Z.land 0x7f 0x80) with 0.
  apply Z.land_0_r.
Qed.

(** Setting bit 7 of a seven-bit value. *)
Lemma set_bit7 x : 0 <= x < 128 -> Z.lor x 0x80 = x + 128.
Proof. intros H. apply Z.or_to_plus. now apply bit7_clear. Qed.

Lemma bit7_of_sum x : 0 <= x < 128 -> Z.land (x + 128) 0x80 = 0x80.
Proof.
  intros H. rewrite <- set_bit7 by lia.
  rewrite Z.land_lor_distr_l, bit7_clear by lia. reflexivity.
Qed.

Lemma low7_of_sum x : 0 <= x < 128 -> Z.land (x + 128) 0x7f = x.
Proof.
  intros H. rewrite low7_mod.
  replace (x + 128) with (x + 1 * 128) by lia.
  rewrite Z.mod_add by lia. apply Z.mod_small. lia.
Qed.

(** The low seven bits and the rest, shifted back, give the number again. *)
Lemma regroup n s :
  0 <= s ->
  Z.lor (Z.shiftl (Z.land n 0x7f) s) (Z.shiftl (Z.shiftr n 7) (s + 7))
  = Z.shiftl n s.
Proof.
  intros Hs. change 0x7f with (Z.ones 7). Z.bitblast.
  rewrite (Z.testbit_neg_r n) by lia. reflexivity.
Qed.

(** ** The unsigned encoder *)

(** Within 31 bits the loop of [encodeLEB128U] ends inside its fuel, extends
    the buffer by a well-continued byte sequence, and the reference decoder
    reads the number back from it. *)
Lemma encodeLEB128U_loop_spec fuel :
  forall n buffer,
    0 <= n < 2 ^ 31 -> n < 2 ^ (7 * Z.of_nat (S fuel)) ->
    exists bytes,
      encodeLEB128U_loop (S fuel) n buffer = Some (buffer ++ bytes)
      /\ continued bytes
      /\ forall result shift rest,
           0 <= shift ->
           decodeUnsigned_from result shift (bytes ++ rest)
           = Some (Z.lor result (Z.shiftl n shift), rest).
Proof.
  induction fuel as [| fuel IH]; intros n buffer Hn Hfuel.
  - change (2 ^ (7 * Z.of_nat 1)) with 128 in Hfuel.
    cbn [encodeLEB128U_loop].
    destruct (Z.ltb_spec 0x7f n) as [Hbig | Hsmall]; [lia |].
    exists [Int n]. split; [reflexivity |]. split.
    + constructor; [lia | apply bit7_clear; lia].
    + intros result shift rest Hs. cbn [app decodeUnsigned_from byte_of].
      replace ((0 <=? n) && (n <? 256)) with true by lia.
      rewrite bit7_clear by lia. cbn [Z.eqb].
      rewrite low7_mod, Z.mod_small by lia. reflexivity.
  - remember (S fuel) as fuel' eqn:Efuel.
    cbn [encodeLEB128U_loop].
    destruct (Z.ltb_spec 0x7f n) as [Hbig | Hsmall].
    + rewrite js_sar_7, ToInt32_small by lia.
      rewrite (js_and_small n 0x7f) by lia.
      pose proof (low7_range n) as Hlow.
      rewrite js_or_small by lia. rewrite set_bit7 by lia.
      assert (Hq : 0 <= n / 128 < 2 ^ 31).
      { split; [apply Z.div_pos; lia |].
        apply Z.div_lt_upper_bound; lia. }
      assert (Hq' : n / 128 < 2 ^ (7 * Z.of_nat fuel')).
      { apply Z.div_lt_upper_bound; [lia |].
        replace (7 * Z.of_nat (S fuel')) with (7 + 7 * Z.of_nat fuel')
          in Hfuel by lia.
        rewrite Z.pow_add_r in Hfuel by lia. exact Hfuel. }
      subst fuel'.
      destruct (IH (n / 128) (buffer ++ [Int (Z.land n 0x7f + 128)]) Hq Hq')
        as (bytes & Hloop & Hcont & Hdec).
      exists (Int (Z.land n 0x7f + 128) :: bytes). split.
      { rewrite Hloop, <- app_assoc. reflexivity. }
      split.
      { constructor; [lia | apply bit7_of_sum; lia | exact Hcont]. }
      intros result shift rest Hs.
      cbn [app decodeUnsigned_from byte_of].
      replace ((0 <=? Z.land n 0x7f + 128) && (Z.land n 0x7f + 128 <? 256))
        with true by lia.
      rewrite bit7_of_sum, low7_of_sum by lia. cbn [Z.eqb].
      rewrite Hdec by lia.
      rewrite <- Z.lor_assoc, <- (regroup n shift) by lia.
      rewrite Z.shiftr_div_pow2 by lia. reflexivity.
    + exists [Int n]. split; [reflexivity |]. split.
      * constructor; [lia | apply bit7_clear; lia].
      * intros result shift rest Hs. cbn [app decodeUnsigned_from byte_of].
        replace ((0 <=? n) && (n <? 256)) with true by lia.
        rewrite bit7_clear by lia. cbn [Z.eqb].
        rewrite low7_mod, Z.mod_small by lia. reflexivity.
Qed.

Lemma encodeLEB128U_loop_small fuel n buffer :
  n <= 0x7f -> encodeLEB128U_loop (S fuel) n buffer = Some (buffer ++ [Int n]).
Proof.
  intros H. cbn [encodeLEB128U_loop].
  destruct (Z.ltb_spec 0x7f n); [lia | reflexivity].
Qed.

Lemma encodeLEB128U_loop_big fuel n buffer :
  0x7f < n ->
  encodeLEB128U_loop (S fuel) n buffer
  = encodeLEB128U_loop fuel (js_sar n 7)
      (buffer ++ [Int (js_or (js_and n 0x7f) 0x80)]).
Proof.
  intros H. cbn [encodeLEB128U_loop].
  destruct (Z.ltb_spec 0x7f n); [reflexivity | lia].
Qed.

(** No integer exhausts the fuel of the unsigned loop. *)
Lemma leb_fuel_enough_U z : returns (encodeLEB128U (Int z)).
Proof.
  unfold returns, encodeLEB128U, leb_fuel. cbn [isInteger].
  destruct (Z.ltb_spec 0x7f z) as [Hbig | Hsmall].
  - rewrite encodeLEB128U_loop_big by exact Hbig.
    rewrite js_sar_7. pose proof (ToInt32_range z) as Hr.
    set (q := ToInt32 z / 128).
    assert (Hq : - 2 ^ 31 <= q < 2 ^ 24).
    { subst q. split.
      - apply Z.div_le_lower_bound; lia.
      - apply Z.div_lt_upper_bound; lia. }
    destruct (Z.le_gt_cases q 0x7f) as [Hle | Hgt].
    + rewrite encodeLEB128U_loop_small by exact Hle. eauto.
    + destruct (encodeLEB128U_loop_spec 6 q
                  ([] ++ [Int (js_or (js_and z 0x7f) 0x80)]))
        as (bytes & Hloop & _); [lia | cbn; lia |].
      rewrite Hloop. eauto.
  - rewrite encodeLEB128U_loop_small by exact Hsmall. eauto.
Qed.

(** Round trip of [encodeLEB128U] on the integers of 31 bits. *)
Lemma encodeLEB128U_roundtrip_31 n :
  0 <= n < 2 ^ 31 ->
  exists bytes,
    encodeLEB128U (Int n) = Ok bytes
    /\ continued bytes
    /\ forall rest, decodeUnsigned (bytes ++ rest) = Some (n, rest).
Proof.
  intros Hn.
  destruct (encodeLEB128U_loop_spec 7 n [] Hn) as (bytes & Hloop & Hc & Hd).
  { cbn. lia. }
  exists bytes. unfold encodeLEB128U, leb_fuel. cbn [isInteger].
  rewrite Hloop. split; [reflexivity |]. split; [exact Hc |].
  intros rest. unfold decodeUnsigned. rewrite Hd by lia.
  now rewrite Z.shiftl_0_r.
Qed.

(** ** The signed encoder *)
Lemma bit6_clear x : 0 <= x < 64 -> Z.land x 0x40 = 0.
Proof.
  intros H. rewrite <- (Z.mod_small x 64) by lia.
  change 64 with (2 ^ 6). rewrite <- Z.land_ones by lia.
  rewrite <- Z.land_assoc. change (Z.land (Z.ones 6) 0x40) with 0.
  apply Z.land_0_r.
Qed.

Lemma bit6_set x : 64 <= x < 128 -> Z.land x 0x40 = 0x40.
Proof.
  intros H. replace x with (x - 64 + 64) by lia.
  rewrite <- (Z.or_to_plus (x - 64) 64) by (apply bit6_clear; lia).
  rewrite Z.land_lor_distr_l, bit6_clear by lia. reflexivity.
Qed.

Lemma js_or_0 z : js_or z 0 = ToInt32 z.
Proof. unfold js_or. change (ToInt32 0) with 0. apply Z.lor_0_r. Qed.

(** One iteration of the signed loop on a 32-bit integer, in arithmetic. *)
Lemma encodeLEB128S_loop_step fuel n buffer :
  - 2 ^ 31 <= n < 2 ^ 31 ->
  encodeLEB128S_loop (S fuel) n buffer
  = if last_group n
    then Some (buffer ++ [Int (Z.land n 0x7f)])
    else encodeLEB128S_loop fuel (n / 128)
           (buffer ++ [Int (Z.land n 0x7f + 128)]).
Proof.
  intros Hn. cbn [encodeLEB128S_loop]. cbv zeta.
  pose proof (low7_range n) as Hlow.
  rewrite js_sar_7, ToInt32_small by lia.
  rewrite (js_and_small n 0x7f) by lia.
  rewrite (js_and_small _ 0x40) by lia.
  rewrite js_or_small, set_bit7 by lia.
  reflexivity.
Qed.

(** What the decoder makes of a last group. *)
Lemma decodeSigned_last n result shift rest :
  0 <= shift -> last_group n = true ->
  decodeSigned_from result shift ([Int (Z.land n 0x7f)] ++ rest)
  = Some (Z.lor result (Z.shiftl n shift), rest).
Proof.
  intros Hs Hstop. pose proof (low7_range n) as Hlow.
  cbn [app decodeSigned_from byte_of].
  replace ((0 <=? Z.land n 0x7f) && (Z.land n 0x7f <? 256)) with true by lia.
  rewrite bit7_clear by lia. cbn [Z.eqb].
  replace (Z.land (Z.land n 0x7f) 0x7f) with (Z.land n 0x7f)
    by (rewrite <- Z.land_assoc; reflexivity).
  unfold last_group in Hstop.
  rewrite <- (regroup n shift) by lia.
  rewrite Z.shiftr_div_pow2 by lia. change (2 ^ 7) with 128.
  apply orb_true_iff in Hstop.
  destruct Hstop as [H | H]; apply andb_true_iff in H; destruct H as [Hq Hb].
  - apply Z.eqb_eq in Hq. rewrite Hb, Hq.
    rewrite Z.shiftl_0_l, Z.lor_0_r. reflexivity.
  - apply Z.eqb_eq in Hq. apply negb_true_iff in Hb. rewrite Hb, Hq.
    rewrite Z.lor_assoc. reflexivity.
Qed.

Lemma last_group_small n : - 64 <= n < 64 -> last_group n = true.
Proof.
  intros H. unfold last_group. rewrite low7_mod.
  destruct (Z.neg_nonneg_cases n) as [Hneg | Hpos].
  - replace (n / 128) with (-1)
      by (apply Z.div_unique with (r := n + 128); lia).
    replace (n mod 128) with (n + 128)
      by (apply Z.mod_unique with (q := -1); lia).
    rewrite bit6_set by lia. rewrite orb_true_iff. right. reflexivity.
  - rewrite Z.div_small, Z.mod_small by lia.
    rewrite bit6_clear by lia. reflexivity.
Qed.

(** On every 32-bit integer the loop of [encodeLEB128S] ends inside its
    fuel with a well-continued byte sequence that the reference decoder
    reads back. *)
Lemma encodeLEB128S_loop_spec fuel :
  forall n buffer,
    - 2 ^ 31 <= n < 2 ^ 31 ->
    - 2 ^ (7 * Z.of_nat (S fuel) - 1) <= n < 2 ^ (7 * Z.of_nat (S fuel) - 1) ->
    exists bytes,
      encodeLEB128S_loop (S fuel) n buffer = Some (buffer ++ bytes)
      /\ continued bytes
      /\ forall result shift rest,
           0 <= shift ->
           decodeSigned_from result shift (bytes ++ rest)
           = Some (Z.lor result (Z.shiftl n shift), rest).
Proof.
  assert (Hlast : forall fuel n buffer,
             - 2 ^ 31 <= n < 2 ^ 31 -> last_group n = true ->
             exists bytes,
               encodeLEB128S_loop (S fuel) n buffer = Some (buffer ++ bytes)
               /\ continued bytes
               /\ forall result shift rest,
                    0 <= shift ->
                    decodeSigned_from result shift (bytes ++ rest)
                    = Some (Z.lor result (Z.shiftl n shift), rest)).
  { intros f n buffer Hn Hstop. pose proof (low7_range n) as Hlow.
    exists [Int (Z.land n 0x7f)].
    rewrite encodeLEB128S_loop_step, Hstop by exact Hn.
    split; [reflexivity |]. split.
    - constructor; [lia | apply bit7_clear; lia].
    - intros. now apply decodeSigned_last. }
  induction fuel as [| fuel IH]; intros n buffer Hn Hfuel.
  - apply Hlast; [exact Hn |]. apply last_group_small.
    change (2 ^ (7 * Z.of_nat 1 - 1)) with 64 in Hfuel. lia.
  - destruct (last_group n) eqn:Hstop; [now apply Hlast |].
    pose proof (low7_range n) as Hlow.
    assert (Hpow : 2 ^ (7 * Z.of_nat (S (S fuel)) - 1)
                   = 128 * 2 ^ (7 * Z.of_nat (S fuel) - 1)).
    { replace (7 * Z.of_nat (S (S fuel)) - 1)
        with (7 + (7 * Z.of_nat (S fuel) - 1)) by lia.
      rewrite Z.pow_add_r by lia. reflexivity. }
    rewrite Hpow in Hfuel.
    assert (Hq : - 2 ^ 31 <= n / 128 < 2 ^ 31).
    { split; [apply Z.div_le_lower_bound; lia
             | apply Z.div_lt_upper_bound; lia]. }
    assert (Hq' : - 2 ^ (7 * Z.of_nat (S fuel) - 1) <= n / 128
                  < 2 ^ (7 * Z.of_nat (S fuel) - 1)).
    { split; [apply Z.div_le_lower_bound; lia
             | apply Z.div_lt_upper_bound; lia]. }
    destruct (IH (n / 128) (buffer ++ [Int (Z.land n 0x7f + 128)]) Hq Hq')
      as (bytes & Hloop & Hcont & Hdec).
    exists (Int (Z.land n 0x7f + 128) :: bytes).
    rewrite encodeLEB128S_loop_step, Hstop by exact Hn.
    split; [rewrite Hloop, <- app_assoc; reflexivity |]. split.
    + constructor; [lia | apply bit7_of_sum; lia | exact Hcont].
    + intros result shift rest Hs.
      cbn [app decodeSigned_from byte_of].
      replace ((0 <=? Z.land n 0x7f + 128) && (Z.land n 0x7f + 128 <? 256))
        with true by lia.
      rewrite bit7_of_sum, low7_of_sum by lia. cbn [Z.eqb].
      rewrite Hdec by lia.
      rewrite <- Z.lor_assoc, <- (regroup n shift) by lia.
      rewrite Z.shiftr_div_pow2 by lia. reflexivity.
Qed.

(** No integer exhausts the fuel of the signed loop. *)
Lemma leb_fuel_enough_S z : returns (encodeLEB128S (Int z)).
Proof.
  unfold returns, encodeLEB128S, leb_fuel. cbn [isInteger].
  rewrite js_or_0. pose proof (ToInt32_range z) as Hr.
  destruct (encodeLEB128S_loop_spec 7 (ToInt32 z) [] Hr)
    as (bytes & Hloop & _); [cbn; lia |].
  rewrite Hloop. eauto.
Qed.

Lemma encodeLEB128S_roundtrip n :
  - 2 ^ 31 <= n < 2 ^ 31 ->
  exists bytes,
    encodeLEB128S (Int n) = Ok bytes
    /\ continued bytes
    /\ forall rest, decodeSigned (bytes ++ rest) = Some (n, rest).
Proof.
  intros Hn. unfold encodeLEB128S, leb_fuel. cbn [isInteger].
  rewrite js_or_0, ToInt32_small by exact Hn.
  destruct (encodeLEB128S_loop_spec 7 n [] Hn) as (bytes & Hloop & Hc & Hd).
  { cbn. lia. }
  exists bytes. rewrite Hloop. split; [reflexivity |]. split; [exact Hc |].
  intros rest. unfold decodeSigned. rewrite Hd by lia.
  now rewrite Z.shiftl_0_r.
Qed.

(** In the upper half of the unsigned 32-bit range the [>>] of the loop
    works on the number read as a negative 32-bit integer: the loop stops
    after one byte and pushes a negative number, which is no byte. *)
Lemma encodeLEB128U_upper_half n :
  2 ^ 31 <= n < 2 ^ 32 ->
  exists b q,
    encodeLEB128U (Int n) = Ok [Int b; Int q]
    /\ q < 0
    /\ decodeUnsigned [Int b; Int q] = None.
Proof.
  intros Hn.
  assert (Ht : ToInt32 n = n - 2 ^ 32).
  { apply ToInt32_unique; [lia |].
    replace (n - (n - 2 ^ 32)) with (1 * 2 ^ 32) by lia.
    apply Z.mod_mul. lia. }
  pose proof (low7_range (n - 2 ^ 32)) as Hlow.
  exists (Z.land (n - 2 ^ 32) 0x7f + 128), ((n - 2 ^ 32) / 128).
  assert (Hq : (n - 2 ^ 32) / 128 < 0)
    by (apply Z.div_lt_upper_bound; lia).
  unfold encodeLEB128U, leb_fuel. cbn [isInteger].
  rewrite encodeLEB128U_loop_big by lia.
  rewrite encodeLEB128U_loop_small by (rewrite js_sar_7, Ht; lia).
  rewrite js_sar_7, Ht. unfold js_and. rewrite Ht.
  change (ToInt32 0x7f) with 0x7f.
  rewrite js_or_small, set_bit7 by lia.
  split; [reflexivity |]. split; [exact Hq |].
  unfold decodeUnsigned. cbn [decodeUnsigned_from byte_of].
  replace ((0 <=? Z.land (n - 2 ^ 32) 0x7f + 128)
           && (Z.land (n - 2 ^ 32) 0x7f + 128 <? 256)) with true by lia.
  rewrite bit7_of_sum by lia. cbn [Z.eqb].
  replace ((0 <=? (n - 2 ^ 32) / 128) && ((n - 2 ^ 32) / 128 <? 256))
    with false by lia.
  reflexivity.
Qed.

(** C1 (the code departs from the claim).  At [n = 2^31], an unsigned
    32-bit integer, [encodeLEB128U] returns [128, -16777216]: the second
    element is not a byte, the reference decoder rejects the sequence, and
    so it does not read [2^31] back.  The unsigned LEB128 encoding of
    [2^31] is [0x80, 0x80, 0x80, 0x80, 0x08]. *)
Theorem encodeLEB128U_2_pow_31 :
  encodeLEB128U (Int (2 ^ 31)) = Ok [Int 0x80; Int (-16777216)]
  /\ decodeUnsigned [Int 0x80; Int (-16777216)] = None
  /\ decodeUnsigned (map Int [0x80; 0x80; 0x80; 0x80; 0x08])
     = Some (2 ^ 31, []).
Proof. repeat split; vm_compute; reflexivity. Qed.

(** C2.  The four byte sequences of the specification, and the round trip
    of [encodeLEB128S] through the reference signed decoder on every 32-bit
    signed integer. *)
Theorem encodeLEB128S_correct :
  encodeLEB128S (Int 0) = Ok [Int 0x00]
  /\ encodeLEB128S (Int (-1)) = Ok [Int 0x7f]
  /\ encodeLEB128S (Int 64) = Ok [Int 0xc0; Int 0x00]
  /\ encodeLEB128S (Int (-123)) = Ok [Int 0x85; Int 0x7f]
  /\ forall n,
       - 2 ^ 31 <= n < 2 ^ 31 ->
       exists bytes,
         encodeLEB128S (Int n) = Ok bytes
         /\ decodeSigned bytes = Some (n, []).
Proof.
  repeat (split; [vm_compute; reflexivity |]).
  intros n Hn.
  destruct (encodeLEB128S_roundtrip n Hn) as (bytes & He & _ & Hd).
  exists bytes. split; [exact He |].
  rewrite <- (app_nil_r bytes) at 1. apply Hd.
Qed.

Lemma encodeLEB128S_correct_witness :
  exists bytes,
    encodeLEB128S (Int (- 2 ^ 31)) = Ok bytes
    /\ decodeSigned bytes = Some (- 2 ^ 31, []).
Proof.
  apply (proj2 (proj2 (proj2 (proj2 encodeLEB128S_correct))) (- 2 ^ 31)).
  lia.
Defined.

(** C3 (as it holds on the code).  [encodeLEB128U] throws its [RangeError]
    exactly when its argument is not an integer: it throws on every
    fractional number, and returns on every integer, a negative integer [z]
    coming back as the one-element sequence [[z]]. *)
Theorem encodeLEB128U_throws_iff_not_integer :
  (forall n, throws (encodeLEB128U n) <-> isInteger n = None)
  /\ (forall ipart fnum fden,
        encodeLEB128U (Frac ipart fnum fden)
        = Throw (RangeError (Frac ipart fnum fden)))
  /\ (forall z, returns (encodeLEB128U (Int z)))
  /\ (forall z, z < 0 -> encodeLEB128U (Int z) = Ok [Int z]).
Proof.
  split; [| split; [| split]].
  - intros n. split.
    + intros [e He]. destruct n; try reflexivity.
      destruct (leb_fuel_enough_U z) as [a Ha]. congruence.
    + intros Hn. unfold throws, encodeLEB128U. rewrite Hn. eauto.
  - reflexivity.
  - apply leb_fuel_enough_U.
  - intros z Hz. unfold encodeLEB128U, leb_fuel. cbn [isInteger].
    rewrite encodeLEB128U_loop_small by lia. reflexivity.
Qed.

Lemma encodeLEB128U_throws_iff_not_integer_witness :
  encodeLEB128U (Int (-5)) = Ok [Int (-5)].
Proof.
  apply (proj2 (proj2 (proj2 encodeLEB128U_throws_iff_not_integer)) (-5)).
  lia.
Defined.

(** C3 as the specification states it fails at [-1]: that is not a
    non-negative integer, and [encodeLEB128U] returns on it. *)
Lemma encodeLEB128U_negative_returns :
  ~ (throws (encodeLEB128U (Int (-1))) <-> ~ 0 <= -1)
  /\ encodeLEB128U (Int (-1)) = Ok [Int (-1)].
Proof.
  split; [| reflexivity].
  intros [_ H]. destruct H as [e He]; [lia |]. discriminate He.
Qed.

(** C9.  [encodeLEB128S] first truncates its argument to 32 bits
    ([n |= 0]) and then encodes what is left: for every integer [n] and the
    signed 32-bit integer [m] congruent to it modulo [2^32], the call
    returns, its result is the result for [m], and that result is the
    signed LEB128 encoding of [m]: well-continued bytes from which the
    reference decoder reads [m], not [n], back. *)
Theorem encodeLEB128S_truncates n m :
  - 2 ^ 31 <= m < 2 ^ 31 -> (n - m) mod 2 ^ 32 = 0 ->
  encodeLEB128S (Int n) = encodeLEB128S (Int m)
  /\ returns (encodeLEB128S (Int n))
  /\ exists bytes,
       encodeLEB128S (Int n) = Ok bytes
       /\ continued bytes
       /\ forall rest, decodeSigned (bytes ++ rest) = Some (m, rest).
Proof.
  intros Hm Hc.
  assert (Hsame : encodeLEB128S (Int n) = encodeLEB128S (Int m)).
  { unfold encodeLEB128S. cbn [isInteger].
    rewrite !js_or_0, (ToInt32_unique n m Hm Hc), (ToInt32_small m Hm).
    reflexivity. }
  split; [exact Hsame |]. split; [apply leb_fuel_enough_S |].
  destruct (encodeLEB128S_roundtrip m Hm) as (bytes & He & Hcont & Hd).
  exists bytes. rewrite Hsame. auto.
Qed.

Lemma encodeLEB128S_truncates_witness :
  encodeLEB128S (Int (2 ^ 32 + 64)) = encodeLEB128S (Int 64)
  /\ returns (encodeLEB128S (Int (2 ^ 32 + 64)))
  /\ exists bytes,
       encodeLEB128S (Int (2 ^ 32 + 64)) = Ok bytes
       /\ continued bytes
       /\ forall rest, decodeSigned (bytes ++ rest) = Some (64, rest).
Proof.
  apply (encodeLEB128S_truncates (2 ^ 32 + 64) 64); [lia | reflexivity].
Defined.

(** ** Vectors and sections *)
Lemma encodeLEB128U_small_nat (k : nat) :
  (k <= 127)%nat -> encodeLEB128U (Int (Z.of_nat k)) = Ok [Int (Z.of_nat k)].
Proof.
  intros Hk. unfold encodeLEB128U, leb_fuel. cbn [isInteger].
  rewrite encodeLEB128U_loop_small by lia. reflexivity.
Qed.

(** [flatMap] concatenates, in order, the encodings of the items. *)
Lemma flatMap_concat {T : Type} (f : T -> outcome (list number)) items :
  forall chunks,
    Forall2 (fun item chunk => f item = Ok chunk) items chunks ->
    flatMap f items = Ok (concat chunks).
Proof.
  induction items as [| item items IH]; intros chunks Hall;
    inversion Hall as [| ? chunk ? chunks' Hhead Htail]; subst.
  - reflexivity.
  - cbn [flatMap concat]. rewrite Hhead. cbn [bind].
    rewrite (IH chunks' Htail). reflexivity.
Qed.

Lemma flatMap_Ok_chunks {T : Type} (f : T -> outcome (list number)) items :
  forall bytes,
    flatMap f items = Ok bytes ->
    exists chunks,
      Forall2 (fun item chunk => f item = Ok chunk) items chunks
      /\ bytes = concat chunks.
Proof.
  induction items as [| item items IH]; intros bytes H; cbn [flatMap] in H.
  - injection H as <-. exists []. split; [constructor | reflexivity].
  - destruct (f item) as [head | |] eqn:Hhead; cbn [bind] in H;
      try discriminate.
    destruct (flatMap f items) as [tail | |] eqn:Htail; cbn [bind] in H;
      try discriminate.
    injection H as <-. destruct (IH tail eq_refl) as (chunks & Hall & ->).
    exists (head :: chunks). split; [now constructor | reflexivity].
Qed.

(** C4 (as it holds on the code).  A section without items still has the
    one-byte vector [[0x00]] as its payload, so for every element encoder
    [encodeSection(1, [], f)] is the three bytes [0x01, 0x01, 0x00]: the id,
    the payload length 1, and the item count 0. *)
Theorem encodeSection_empty {T : Type} (f : T -> outcome (list number)) :
  encodeSection (Int 1) [] f = Ok [Int 0x01; Int 0x01; Int 0x00].
Proof. reflexivity. Qed.

(** C4 as the specification states it: the two bytes [0x01, 0x00] are not
    what the call returns. *)
Lemma encodeSection_empty_not_two_bytes :
  encodeSection (Int 1) [] (fun _ : unit => Ok [])
  <> Ok [Int 0x01; Int 0x00].
Proof. vm_compute. discriminate. Qed.

(** ** Limits *)

(** Without a maximum the flag is 0, and with a maximum that is neither 0
    nor NaN the flag is 1 and the maximum follows the minimum. *)
Lemma encodeLimits_layout lo hi lowBytes :
  encodeLEB128U lo = Ok lowBytes ->
  encodeLimits {| min := lo; max := None |} = Ok (Int 0x00 :: lowBytes)
  /\ forall highBytes,
       truthy hi = true -> encodeLEB128U hi = Ok highBytes ->
       encodeLimits {| min := lo; max := Some hi |}
       = Ok (Int 0x01 :: lowBytes ++ highBytes).
Proof.
  intros Hlo. unfold encodeLimits. cbn [min max]. rewrite Hlo. cbn [bind].
  split; [reflexivity |].
  intros highBytes Ht Hhi. rewrite Ht, Hhi. reflexivity.
Qed.

(** C5 (the code departs from the claim).  On the limits
    [{min: 0, max: 0}] the maximum is there, yet [encodeLimits] returns
    [0x00, 0x00], the encoding of [{min: 0}]: [if (limits.max)] takes the
    number 0 for an absent field.  The claim asks for the flag 1 and both
    bounds, [0x01, 0x00, 0x00]. *)
Theorem encodeLimits_max_zero :
  encodeLimits {| min := Int 0; max := Some (Int 0) |}
  = Ok [Int 0x00; Int 0x00]
  /\ encodeLimits {| min := Int 0; max := Some (Int 0) |}
     = encodeLimits {| min := Int 0; max := None |}
  /\ encodeLimits {| min := Int 0; max := Some (Int 0) |}
     <> Ok [Int 0x01; Int 0x00; Int 0x00].
Proof. repeat split; vm_compute; [reflexivity .. | discriminate]. Qed.

(** ** Sections *)

(** C6.  A section is its id, then the LEB128 of the length of the
    vector-encoded payload, then that payload; read back, the length prefix
    is the number of payload bytes alone.  When the payload cannot be
    encoded the section throws the same exception. *)
Theorem encodeSection_layout {T : Type} (id : number) (items : list T)
    (f : T -> outcome (list number)) :
  (forall payload,
     encodeVector items f = Ok payload ->
     exists prefix,
       encodeLEB128U (Int (Z.of_nat (length payload))) = Ok prefix
       /\ encodeSection id items f = Ok (id :: prefix ++ payload)
       /\ (Z.of_nat (length payload) < 2 ^ 31 ->
           decodeUnsigned (prefix ++ payload)
           = Some (Z.of_nat (length payload), payload)))
  /\ (forall e,
        encodeVector items f = Throw e -> encodeSection id items f = Throw e).
Proof.
  split.
  - intros payload Hv.
    destruct (leb_fuel_enough_U (Z.of_nat (length payload))) as [prefix Hp].
    exists prefix. split; [exact Hp |]. split.
    + unfold encodeSection. rewrite Hv. cbn [bind]. rewrite Hp. reflexivity.
    + intros Hlen.
      destruct (encodeLEB128U_roundtrip_31 (Z.of_nat (length payload)))
        as (prefix' & Hp' & _ & Hd); [lia |].
      rewrite Hp in Hp'. injection Hp' as <-. apply Hd.
  - intros e Hv. unfold encodeSection. rewrite Hv. reflexivity.
Qed.

Lemma encodeSection_layout_witness :
  exists prefix,
    encodeLEB128U (Int 3) = Ok prefix
    /\ encodeSection (Int 3) [Int 0; Int 1] encodeLEB128U
       = Ok (Int 3 :: prefix ++ [Int 2; Int 0; Int 1])
    /\ decodeUnsigned (prefix ++ [Int 2; Int 0; Int 1])
       = Some (3, [Int 2; Int 0; Int 1]).
Proof.
  destruct (proj1 (encodeSection_layout (Int 3) [Int 0; Int 1] encodeLEB128U)
              [Int 2; Int 0; Int 1] eq_refl)
    as (prefix & Hprefix & Hsection & Hlength).
  exists prefix. split; [exact Hprefix |]. split; [exact Hsection |].
  apply Hlength. cbn. lia.
Defined.

(** ** Reading instructions back *)

(** Induction on instructions that reaches into both branches of a
    conditional. *)
Lemma Instruction_nested_ind (P : Instruction -> Prop) :
  (forall instruction, tag instruction <> InstrType.If -> P instruction) ->
  (forall t thenInstrs elseInstrs,
     Forall P thenInstrs -> Forall P elseInstrs ->
     P (iIf t thenInstrs elseInstrs)) ->
  forall instruction, P instruction.
Proof.
  intros Hleaf Hif. fix IH 1. intros instruction.
  destruct instruction as [ | | | | | | | | | | | | | | t thenInstrs elseInstrs];
    try (apply Hleaf; discriminate).
  apply Hif.
  - induction thenInstrs as [| i l IHl]; constructor; [apply IH | exact IHl].
  - induction elseInstrs as [| i l IHl]; constructor; [apply IH | exact IHl].
Qed.

Lemma u31_roundtrip n :
  u31 n = true ->
  exists bytes,
    encodeLEB128U n = Ok bytes
    /\ forall rest, decodeUnsigned (bytes ++ rest)
                    = match n with Int z => Some (z, rest) | _ => None end.
Proof.
  destruct n as [z | | | |]; try discriminate. cbn [u31]. intros H.
  destruct (encodeLEB128U_roundtrip_31 z) as (bytes & He & _ & Hd); [lia |].
  eauto.
Qed.

Lemma with_unsigned_encoded (k : number -> Instruction) n :
  u31 n = true ->
  exists bytes,
    encodeLEB128U n = Ok bytes
    /\ forall rest, with_unsigned k (bytes ++ rest) = Some (k n, rest).
Proof.
  intros H. destruct (u31_roundtrip n H) as (bytes & He & Hd).
  exists bytes. split; [exact He |]. intros rest. unfold with_unsigned.
  rewrite Hd. destruct n; try discriminate. reflexivity.
Qed.

Ltac one_immediate k H :=
  let bytes := fresh "bytes" in
  let He := fresh "He" in
  let Hd := fresh "Hd" in
  destruct (with_unsigned_encoded k _ H) as (bytes & He & Hd);
  eexists _, bytes; cbn [encodeInstruction]; rewrite He;
  repeat split; intros; unfold parseOne; cbn [Z.eqb Pos.eqb]; apply Hd.

Lemma readable_leaf instruction :
  tag instruction <> InstrType.If ->
  encodable instruction = true -> readable instruction.
Proof.
  intros Htag Henc. unfold readable.
  destruct instruction; cbn [encodable] in Henc;
    try (eexists _, []; repeat split; fail).
  - apply andb_true_iff in Henc. destruct Henc as [Ha Ho].
    destruct (u31_roundtrip align Ha) as (abytes & Hea & Hda).
    destruct (with_unsigned_encoded (iI32Load align) offset Ho)
      as (obytes & Heo & Hdo).
    eexists _, (abytes ++ obytes). cbn [encodeInstruction].
    rewrite Hea, Heo. repeat split. intros fuel rest _.
    unfold parseOne. cbn [Z.eqb Pos.eqb]. rewrite <- app_assoc, Hda.
    destruct align; try discriminate. apply Hdo.
  - destruct n as [z | | | |]; try discriminate. cbn [s32] in Henc.
    destruct (encodeLEB128S_roundtrip z) as (bytes & He & _ & Hd); [lia |].
    eexists _, bytes. cbn [encodeInstruction]. rewrite He.
    repeat split. intros fuel rest _.
    unfold parseOne. cbn [Z.eqb Pos.eqb]. rewrite Hd. reflexivity.
  - one_immediate iLocalGet Henc.
  - one_immediate iLocalSet Henc.
  - one_immediate iLocalTee Henc.
  - one_immediate iBrIf Henc.
  - one_immediate iCall Henc.
  - contradiction Htag. reflexivity.
Qed.

Lemma parseInstrs_stop fuel stop rest :
  stop = 0x05 \/ stop = 0x0b ->
  parseInstrs (S fuel) (Int stop :: rest) = Some ([], stop, rest).
Proof. intros [-> | ->]; reflexivity. Qed.

Lemma parseInstrs_cons fuel op bytes :
  byte_of (Int op) = Some op ->
  (op =? 0x05) || (op =? 0x0b) = false ->
  parseInstrs (S fuel) (Int op :: bytes)
  = match parseOne (parseInstrs fuel) op bytes with
    | None => None
    | Some (instruction, bytes) =>
        match parseInstrs fuel bytes with
        | Some (more, stop, bytes) => Some (instruction :: more, stop, bytes)
        | None => None
        end
    end.
Proof. intros Hb Hm. cbn [parseInstrs]. rewrite Hb, Hm. reflexivity. Qed.

Lemma readable_seq_of_Forall instrs :
  Forall readable instrs -> readable_seq instrs.
Proof.
  induction 1 as [| instruction instrs Hone _ IH]; unfold readable_seq.
  - exists []. split; [reflexivity |].
    intros fuel stop rest Hstop Hfuel. destruct fuel; [cbn in Hfuel; lia |].
    now apply parseInstrs_stop.
  - destruct Hone as (op & more & He & Hb & Hm & Hp).
    destruct IH as (tail & Ht & Hseq).
    exists ((Int op :: more) ++ tail). split.
    + cbn [flatMap]. rewrite He. cbn [bind]. rewrite Ht. reflexivity.
    + intros fuel stop rest Hstop Hfuel.
      cbn [app length] in Hfuel. rewrite length_app in Hfuel.
      destruct fuel as [| fuel]; [lia |].
      cbn [app]. rewrite parseInstrs_cons by assumption.
      rewrite <- app_assoc, Hp by lia.
      rewrite Hseq by (assumption || lia). reflexivity.
Qed.

Lemma Forall_readable instrs :
  Forall (fun i => encodable i = true -> readable i) instrs ->
  forallb encodable instrs = true ->
  Forall readable instrs.
Proof.
  induction 1 as [| i l Hi _ IH]; intros Henc; constructor;
    cbn [forallb] in Henc; apply andb_true_iff in Henc; tauto.
Qed.

Lemma readable_of_encodable instruction :
  encodable instruction = true -> readable instruction.
Proof.
  induction instruction as [i Htag | t thenInstrs elseInstrs Hthen Helse]
    using Instruction_nested_ind; intros Henc.
  - now apply readable_leaf.
  - cbn [encodable] in Henc. apply andb_true_iff in Henc.
    destruct Henc as [Ht He].
    destruct (readable_seq_of_Forall _ (Forall_readable _ Hthen Ht))
      as (thenBytes & Hte & Htp).
    destruct (readable_seq_of_Forall _ (Forall_readable _ Helse He))
      as (elseBytes & Hee & Hep).
    exists 0x04,
      (Int (ValueType_value t) :: thenBytes ++ Int 0x05 :: elseBytes
         ++ [Int 0x0b]).
    cbn [encodeInstruction]. rewrite Hte, Hee. repeat split.
    intros fuel rest Hfuel.
    cbn [length] in Hfuel. rewrite !length_app in Hfuel.
    cbn [length] in Hfuel. rewrite length_app in Hfuel.
    cbn [length] in Hfuel.
    unfold parseOne. cbn [Z.eqb Pos.eqb app].
    replace (byte_of (Int (ValueType_value t)))
      with (Some (ValueType_value t)) by (destruct t as [[] | []]; reflexivity).
    replace (ValueType_of_byte (ValueType_value t)) with (Some t)
      by (destruct t as [[] | []]; reflexivity).
    rewrite <- app_assoc. cbn [app].
    rewrite Htp by (auto || lia). cbn [Z.eqb Pos.eqb].
    rewrite <- app_assoc. cbn [app].
    rewrite Hep by (auto || lia). reflexivity.
Qed.

(** The reader returns the instructions of every encodable sequence, with
    one more unit of fuel than there are bytes. *)
Lemma parseInstrs_flatMap instrs :
  forallb encodable instrs = true -> readable_seq instrs.
Proof.
  intros Henc. apply readable_seq_of_Forall. rewrite Forall_forall.
  intros i Hi. apply readable_of_encodable.
  rewrite forallb_forall in Henc. now apply Henc.
Qed.

(** C7.  A conditional is encoded as the opcode 0x04, the result type, the
    encodings of the instructions of the then-branch in order, the byte
    0x05, the encodings of the instructions of the else-branch in order, and
    the byte 0x0b.  The markers pair up at every depth: the reference
    reader, which closes a branch at the first marker of its own depth,
    gives back the very tree that was encoded. *)
Theorem encodeInstruction_If t thenInstrs elseInstrs :
  (forall thenChunks elseChunks,
     Forall2 (fun i chunk => encodeInstruction i = Ok chunk)
       thenInstrs thenChunks ->
     Forall2 (fun i chunk => encodeInstruction i = Ok chunk)
       elseInstrs elseChunks ->
     encodeInstruction (iIf t thenInstrs elseInstrs)
     = Ok (Int 0x04 :: Int (ValueType_value t)
             :: concat thenChunks ++ Int 0x05
             :: concat elseChunks ++ [Int 0x0b]))
  /\ (encodable (iIf t thenInstrs elseInstrs) = true ->
      exists bytes,
        encodeInstruction (iIf t thenInstrs elseInstrs) = Ok bytes
        /\ forall stop rest,
             stop = 0x05 \/ stop = 0x0b ->
             parseInstrs (S (length bytes)) (bytes ++ Int stop :: rest)
             = Some ([iIf t thenInstrs elseInstrs], stop, rest)).
Proof.
  split.
  - intros thenChunks elseChunks Hthen Helse. cbn [encodeInstruction].
    rewrite (flatMap_concat _ _ _ Hthen), (flatMap_concat _ _ _ Helse).
    reflexivity.
  - intros Henc.
    destruct (parseInstrs_flatMap [iIf t thenInstrs elseInstrs])
      as (bytes & He & Hp).
    { cbn [forallb]. rewrite Henc. reflexivity. }
    cbn [flatMap] in He.
    destruct (encodeInstruction (iIf t thenInstrs elseInstrs))
      as [one | |] eqn:Hone; cbn [bind] in He; try discriminate.
    injection He as <-. rewrite app_nil_r in Hp.
    exists one. split; [reflexivity |].
    intros stop rest Hstop. apply Hp; [exact Hstop | lia].
Qed.

Lemma encodeInstruction_If_witness :
  encodeInstruction (iIf i32 [iI32Const (Int 5)] [iLocalGet (Int 11); iDrop])
  = Ok (map Int [0x04; 0x7f; 0x41; 0x05; 0x05; 0x20; 0x0b; 0x1a; 0x0b])
  /\ exists bytes,
       encodeInstruction nested_example = Ok bytes
       /\ parseInstrs (S (length bytes)) (bytes ++ [Int 0x0b])
          = Some ([nested_example], 0x0b, []).
Proof.
  split.
  - apply (proj1 (encodeInstruction_If i32 [iI32Const (Int 5)]
                    [iLocalGet (Int 11); iDrop])
             [[Int 0x41; Int 0x05]] [[Int 0x20; Int 0x0b]; [Int 0x1a]]);
      repeat constructor.
  - destruct (proj2 (encodeInstruction_If i32
                  [iLocalGet (Int 5);
                   iIf i32 [iI32Const (Int 5)]
                     [iI32Const (Int 11); iDrop; iLocalGet (Int 11)]]
                  [iIf i32 []
                     [iIf i32 [iI32Const (Int (-1))] [iLocalGet (Int 300)]]])
                eq_refl) as (bytes & Hbytes & Hread).
    exists bytes. split; [exact Hbytes |]. apply Hread. right. reflexivity.
Defined.

(** The bytes of the nested example, conditionals and markers aligned. *)
Example encodeInstruction_nested_example :
  encodeInstruction nested_example
  = Ok (map Int
          [0x04; 0x7f;
             0x20; 0x05;
             0x04; 0x7f;
               0x41; 0x05;
             0x05;
               0x41; 0x0b; 0x1a; 0x20; 0x0b;
             0x0b;
           0x05;
             0x04; 0x7f;
             0x05;
               0x04; 0x7f;
                 0x41; 0x7f;
               0x05;
                 0x20; 0xac; 0x02;
               0x0b;
             0x0b;
           0x0b]).
Proof. vm_compute. reflexivity. Qed.

(** ** The module *)

(** C8.  The module starts with the four bytes of the magic and the four of
    the version; after these eight bytes come the type, function, memory,
    export and code sections as their encoders return them, in this order,
    and the section framing read back gives the ids 1, 3, 5, 7, 10. *)
Theorem encodeModule_layout :
  exists bytes types funcs mems exports code,
    encodeModule tt = Ok bytes
    /\ firstn 4 bytes = [0x00; 0x61; 0x73; 0x6d]
    /\ firstn 4 (skipn 4 bytes) = [0x01; 0x00; 0x00; 0x00]
    /\ encodeTypeSection [binarySearch_type] = Ok types
    /\ encodeFuncSection [Int 0] = Ok funcs
    /\ encodeMemorySection [binarySearch_memory] = Ok mems
    /\ encodeExportSection binarySearch_exports = Ok exports
    /\ encodeCodeSection [binarySearch_body] = Ok code
    /\ map Int (skipn 8 bytes) = types ++ funcs ++ mems ++ exports ++ code
    /\ section_ids (skipn 8 bytes) = Some [1; 3; 5; 7; 10].
Proof.
  do 6 eexists. repeat split; vm_compute; reflexivity.
Qed.

(** C10.  [encodeModule] has no module description to read: whatever the
    call, it returns the bytes of the one binary-search module, which are
    those of the hand-assembled [binarySearch_wasm]. *)
Theorem encodeModule_constant :
  forall call : unit, encodeModule call = Ok binarySearch_wasm.
Proof. intros []. vm_compute. reflexivity. Qed.

(** ** Every encoder ends

    [OutOfFuel] belongs to the model, not to the program: no encoder ever
    yields it, whatever its input. *)
Lemma bind_ends {A B : Type} (c : outcome A) (k : A -> outcome B) :
  ends c -> (forall a, ends (k a)) -> ends (bind c k).
Proof. destruct c; cbn [bind]; unfold ends; auto; discriminate. Qed.

Lemma Ok_ends {A : Type} (a : A) : ends (Ok a).
Proof. discriminate. Qed.

Lemma encodeLEB128U_ends n : ends (encodeLEB128U n).
Proof.
  destruct n as [z | | | |]; try discriminate.
  destruct (leb_fuel_enough_U z) as [bytes ->]. discriminate.
Qed.

Lemma encodeLEB128S_ends n : ends (encodeLEB128S n).
Proof.
  destruct n as [z | | | |]; try discriminate.
  destruct (leb_fuel_enough_S z) as [bytes ->]. discriminate.
Qed.

Create HintDb ends.
#[local] Hint Resolve Ok_ends encodeLEB128U_ends encodeLEB128S_ends : ends.

Lemma flatMap_ends {T : Type} (f : T -> outcome (list number)) items :
  Forall (fun item => ends (f item)) items -> ends (flatMap f items).
Proof.
  induction 1 as [| item items Hitem _ IH]; cbn [flatMap];
    [apply Ok_ends |].
  apply bind_ends; [exact Hitem | intros head].
  apply bind_ends; [exact IH | intros tail]. apply Ok_ends.
Qed.

Lemma encodeVector_ends {T : Type} (items : list T) f :
  (forall item, ends (f item)) -> ends (encodeVector items f).
Proof.
  intros Hf. unfold encodeVector.
  apply bind_ends; [auto with ends | intros len].
  apply bind_ends; [| auto with ends].
  apply flatMap_ends, Forall_forall. auto.
Qed.

Lemma encodeSection_ends {T : Type} id (items : list T) f :
  (forall item, ends (f item)) -> ends (encodeSection id items f).
Proof.
  intros Hf. unfold encodeSection.
  apply bind_ends; [now apply encodeVector_ends | intros bytes].
  apply bind_ends; auto with ends.
Qed.

Lemma encodeInstruction_ends instruction : ends (encodeInstruction instruction).
Proof.
  induction instruction as [i Htag | t thenInstrs elseInstrs Hthen Helse]
    using Instruction_nested_ind.
  - destruct i; try (contradiction Htag; reflexivity);
      cbn [encodeInstruction];
      repeat (apply bind_ends; [auto with ends | intros ?]);
      auto with ends.
  - cbn [encodeInstruction].
    apply bind_ends; [now apply flatMap_ends | intros thenBytes].
    apply bind_ends; [now apply flatMap_ends | intros elseBytes].
    apply Ok_ends.
Qed.

Lemma encodeFuncBody_ends body : ends (encodeFuncBody body).
Proof.
  unfold encodeFuncBody.
  apply bind_ends; [| intros decls].
  { apply encodeVector_ends. intros [count type].
    apply bind_ends; auto with ends. }
  apply bind_ends; [| intros code].
  { apply flatMap_ends, Forall_forall. intros i _.
    apply encodeInstruction_ends. }
  cbv zeta. apply bind_ends; auto with ends.
Qed.

Lemma encodeLimits_ends limits : ends (encodeLimits limits).
Proof.
  unfold encodeLimits. destruct (max limits) as [m |]; [destruct (truthy m) |];
    repeat (apply bind_ends; [auto with ends | intros ?]); auto with ends.
Qed.

Lemma encodeExport_ends exportEntry : ends (encodeExport exportEntry).
Proof.
  unfold encodeExport. cbv zeta.
  repeat (apply bind_ends; [auto with ends | intros ?]); auto with ends.
Qed.

Lemma encodeFuncType_ends funcType : ends (encodeFuncType funcType).
Proof.
  unfold encodeFuncType.
  apply bind_ends; [apply encodeVector_ends; auto with ends | intros params].
  apply bind_ends; [apply encodeVector_ends; auto with ends | intros rets].
  apply Ok_ends.
Qed.

(** * Further properties of the encoders *)

(** ** LEB128, unsigned *)

Lemma div128_lt n k :
  0 <= k -> (n / 128 < 2 ^ (7 * k) <-> n < 2 ^ (7 * (k + 1))).
Proof.
  intros Hk.
  replace (7 * (k + 1)) with (7 + 7 * k) by lia.
  rewrite Z.pow_add_r by lia. change (2 ^ 7) with 128.
  pose proof (Z.pow_pos_nonneg 2 (7 * k) ltac:(lia) ltac:(lia)) as Hpos.
  pose proof (Z.div_mod n 128 ltac:(lia)) as Hdm.
  pose proof (Z.mod_pos_bound n 128 ltac:(lia)) as Hm.
  split; intros H; nia.
Qed.

(** The number of bytes pushed by the unsigned loop. *)
Lemma encodeLEB128U_loop_length fuel :
  forall n buffer,
    0 <= n < 2 ^ 31 -> n < 2 ^ (7 * Z.of_nat (S fuel)) ->
    exists bytes,
      encodeLEB128U_loop (S fuel) n buffer = Some (buffer ++ bytes)
      /\ (1 <= length bytes)%nat
      /\ forall k, (1 <= k)%nat ->
           ((length bytes <= k)%nat <-> n < 2 ^ (7 * Z.of_nat k)).
Proof.
  induction fuel as [| fuel IH]; intros n buffer Hn Hfuel.
  - change (2 ^ (7 * Z.of_nat 1)) with 128 in Hfuel.
    rewrite encodeLEB128U_loop_small by lia.
    exists [Int n]. split; [reflexivity |]. split; [cbn; lia |].
    intros k Hk. cbn [length]. split; [intros _ | lia].
    apply Z.lt_le_trans with (2 ^ 7); [cbn; lia |].
    apply Z.pow_le_mono_r; lia.
  - destruct (Z.le_gt_cases n 0x7f) as [Hsmall | Hbig].
    + rewrite encodeLEB128U_loop_small by lia.
      exists [Int n]. split; [reflexivity |]. split; [cbn; lia |].
      intros k Hk. cbn [length]. split; [intros _ | lia].
      apply Z.lt_le_trans with (2 ^ 7); [cbn; lia |].
      apply Z.pow_le_mono_r; lia.
    + rewrite encodeLEB128U_loop_big by lia.
      rewrite js_sar_7, ToInt32_small by lia.
      assert (Hq : 0 <= n / 128 < 2 ^ 31).
      { split; [apply Z.div_pos; lia | apply Z.div_lt_upper_bound; lia]. }
      assert (Hq' : n / 128 < 2 ^ (7 * Z.of_nat (S fuel))).
      { apply div128_lt; [lia |].
        replace (Z.of_nat (S fuel) + 1) with (Z.of_nat (S (S fuel))) by lia.
        exact Hfuel. }
      destruct (IH (n / 128) (buffer ++ [Int (js_or (js_and n 0x7f) 0x80)])
                  Hq Hq') as (bytes & Hloop & Hlen & Hk).
      exists (Int (js_or (js_and n 0x7f) 0x80) :: bytes).
      split; [rewrite Hloop, <- app_assoc; reflexivity |].
      split; [cbn; lia |].
      intros k Hk1. cbn [length].
      destruct k as [| [| k]]; [lia | |].
      * change (2 ^ (7 * Z.of_nat 1)) with 128. lia.
      * specialize (Hk (S k) ltac:(lia)).
        rewrite (div128_lt n (Z.of_nat (S k))) in Hk by lia.
        replace (Z.of_nat (S k) + 1) with (Z.of_nat (S (S k))) in Hk by lia.
        rewrite <- Hk. lia.
Qed.

(** X1.  On the integers below [2^31], [encodeLEB128U] returns a
    well-continued sequence of bytes that delimits itself: the reference
    decoder reads the number back and stops exactly where the encoding
    ends, whatever bytes follow. *)
Theorem encodeLEB128U_self_delimiting n rest :
  0 <= n < 2 ^ 31 ->
  exists bytes,
    encodeLEB128U (Int n) = Ok bytes
    /\ continued bytes
    /\ decodeUnsigned (bytes ++ rest) = Some (n, rest).
Proof.
  intros Hn.
  destruct (encodeLEB128U_roundtrip_31 n Hn) as (bytes & He & Hc & Hd).
  exists bytes. auto.
Qed.

Lemma encodeLEB128U_self_delimiting_witness :
  exists bytes,
    encodeLEB128U (Int 624485) = Ok bytes
    /\ continued bytes
    /\ decodeUnsigned (bytes ++ [Int 0xff]) = Some (624485, [Int 0xff]).
Proof. apply (encodeLEB128U_self_delimiting 624485 [Int 0xff]). lia. Defined.

(** X2.  Below [2^31] the unsigned encoding is the shortest one: it fits in
    [k] bytes exactly when the number is below [2^(7k)]. *)
Theorem encodeLEB128U_shortest n bytes k :
  0 <= n < 2 ^ 31 -> (1 <= k)%nat ->
  encodeLEB128U (Int n) = Ok bytes ->
  ((length bytes <= k)%nat <-> n < 2 ^ (7 * Z.of_nat k)).
Proof.
  intros Hn Hk He. unfold encodeLEB128U, leb_fuel in He. cbn [isInteger] in He.
  destruct (encodeLEB128U_loop_length 7 n [] Hn) as (bytes' & Hloop & _ & Hlen).
  { cbn. lia. }
  rewrite Hloop in He. injection He as <-. now apply Hlen.
Qed.

Lemma encodeLEB128U_shortest_witness :
  (length [Int 0xe5; Int 0x8e; Int 0x26] <= 3)%nat
  <-> 624485 < 2 ^ (7 * Z.of_nat 3).
Proof.
  apply (encodeLEB128U_shortest 624485 [Int 0xe5; Int 0x8e; Int 0x26] 3);
    [lia | lia | reflexivity].
Defined.

(** X3.  An integer above 127 that does not fit in 32 bits is not refused:
    it is encoded as its residue modulo [2^32] (shown here for residues
    below [2^31], which the decoder reads back). *)
Theorem encodeLEB128U_wraps n rest :
  0x7f < n -> n mod 2 ^ 32 < 2 ^ 31 ->
  exists bytes,
    encodeLEB128U (Int n) = Ok bytes
    /\ decodeUnsigned (bytes ++ rest) = Some (n mod 2 ^ 32, rest).
Proof.
  intros Hbig Hres. set (m := n mod 2 ^ 32).
  pose proof (Z.mod_pos_bound n (2 ^ 32) ltac:(lia)) as Hm. fold m in Hm, Hres.
  assert (Ht : ToInt32 n = m).
  { apply ToInt32_unique; [lia |]. subst m.
    rewrite Zminus_mod_idemp_r, Z.sub_diag. reflexivity. }
  pose proof (low7_range m) as Hlow.
  assert (Hq : 0 <= m / 128 < 2 ^ 31).
  { split; [apply Z.div_pos; lia | apply Z.div_lt_upper_bound; lia]. }
  destruct (encodeLEB128U_loop_spec 6 (m / 128) [Int (Z.land m 0x7f + 128)] Hq)
    as (bytes & Hloop & _ & Hdec); [cbn; lia |].
  exists (Int (Z.land m 0x7f + 128) :: bytes). split.
  - unfold encodeLEB128U, leb_fuel. cbn [isInteger].
    rewrite encodeLEB128U_loop_big by lia.
    rewrite js_sar_7. unfold js_and. rewrite Ht.
    change (ToInt32 0x7f) with 0x7f.
    rewrite js_or_small, set_bit7 by lia. cbn [app]. rewrite Hloop.
    reflexivity.
  - unfold decodeUnsigned. cbn [app decodeUnsigned_from byte_of].
    replace ((0 <=? Z.land m 0x7f + 128) && (Z.land m 0x7f + 128 <? 256))
      with true by lia.
    rewrite bit7_of_sum, low7_of_sum by lia. cbn [Z.eqb].
    rewrite Hdec by lia.
    rewrite Z.lor_0_l.
    replace (m / 128) with (Z.shiftr m 7)
      by (rewrite Z.shiftr_div_pow2 by lia; reflexivity).
    rewrite regroup by lia. now rewrite Z.shiftl_0_r.
Qed.

Lemma encodeLEB128U_wraps_witness :
  exists bytes,
    encodeLEB128U (Int (2 ^ 32 + 5)) = Ok bytes
    /\ decodeUnsigned (bytes ++ []) = Some ((2 ^ 32 + 5) mod 2 ^ 32, []).
Proof.
  apply (encodeLEB128U_wraps (2 ^ 32 + 5) []); [lia | reflexivity].
Defined.

(** X4.  On every integer from [2^31] up to [2^32 - 1] the result of
    [encodeLEB128U] has two elements, and the second is a negative number:
    the result is not a sequence of bytes, and the decoder rejects it. *)
Theorem encodeLEB128U_upper_half_not_bytes n :
  2 ^ 31 <= n < 2 ^ 32 ->
  exists first second,
    encodeLEB128U (Int n) = Ok [first; second]
    /\ byte_of second = None
    /\ decodeUnsigned [first; second] = None.
Proof.
  intros Hn.
  destruct (encodeLEB128U_upper_half n Hn) as (b & q & He & Hq & Hd).
  exists (Int b), (Int q). split; [exact He |]. split; [| exact Hd].
  cbn [byte_of]. destruct (Z.leb_spec 0 q); [lia | reflexivity].
Qed.

Lemma encodeLEB128U_upper_half_not_bytes_witness :
  exists first second,
    encodeLEB128U (Int (2 ^ 32 - 1)) = Ok [first; second]
    /\ byte_of second = None
    /\ decodeUnsigned [first; second] = None.
Proof. apply (encodeLEB128U_upper_half_not_bytes (2 ^ 32 - 1)). lia. Defined.

(** ** LEB128, signed *)

Lemma div128_lt_pow n e : 0 <= e -> (n / 128 < 2 ^ e <-> n < 2 ^ (e + 7)).
Proof.
  intros He. rewrite Z.pow_add_r by lia. change (2 ^ 7) with 128.
  pose proof (Z.pow_pos_nonneg 2 e ltac:(lia) He) as Hpos.
  pose proof (Z.div_mod n 128 ltac:(lia)) as Hdm.
  pose proof (Z.mod_pos_bound n 128 ltac:(lia)) as Hm.
  split; intros H; nia.
Qed.

Lemma div128_ge_pow n e : 0 <= e -> (- 2 ^ e <= n / 128 <-> - 2 ^ (e + 7) <= n).
Proof.
  intros He. rewrite Z.pow_add_r by lia. change (2 ^ 7) with 128.
  pose proof (Z.pow_pos_nonneg 2 e ltac:(lia) He) as Hpos.
  pose proof (Z.div_mod n 128 ltac:(lia)) as Hdm.
  pose proof (Z.mod_pos_bound n 128 ltac:(lia)) as Hm.
  split; intros H; nia.
Qed.

(** The signed loop stops at the first group exactly on [-64 .. 63]. *)
Lemma last_group_iff n : last_group n = true <-> - 64 <= n < 64.
Proof.
  split; [| apply last_group_small].
  unfold last_group. rewrite low7_mod. intros H.
  pose proof (Z.div_mod n 128 ltac:(lia)) as Hdm.
  pose proof (Z.mod_pos_bound n 128 ltac:(lia)) as Hm.
  apply orb_true_iff in H.
  destruct H as [H | H]; apply andb_true_iff in H; destruct H as [Hq Hb];
    apply Z.eqb_eq in Hq.
  - apply Z.eqb_eq in Hb.
    destruct (Z.lt_ge_cases (n mod 128) 64) as [Hlt | Hge]; [lia |].
    rewrite bit6_set in Hb by lia. discriminate.
  - apply negb_true_iff, Z.eqb_neq in Hb.
    destruct (Z.lt_ge_cases (n mod 128) 64) as [Hlt | Hge]; [| lia].
    rewrite bit6_clear in Hb by lia. contradiction.
Qed.

Lemma encodeLEB128S_loop_length fuel :
  forall n buffer,
    - 2 ^ 31 <= n < 2 ^ 31 ->
    - 2 ^ (7 * Z.of_nat (S fuel) - 1) <= n < 2 ^ (7 * Z.of_nat (S fuel) - 1) ->
    exists bytes,
      encodeLEB128S_loop (S fuel) n buffer = Some (buffer ++ bytes)
      /\ (1 <= length bytes)%nat
      /\ forall k, (1 <= k)%nat ->
           ((length bytes <= k)%nat
            <-> - 2 ^ (7 * Z.of_nat k - 1) <= n < 2 ^ (7 * Z.of_nat k - 1)).
Proof.
  assert (Hone : forall k, (1 <= k)%nat -> 64 <= 2 ^ (7 * Z.of_nat k - 1)).
  { intros k Hk. change 64 with (2 ^ 6). apply Z.pow_le_mono_r; lia. }
  assert (Hlast : forall fuel n buffer,
             - 2 ^ 31 <= n < 2 ^ 31 -> last_group n = true ->
             exists bytes,
               encodeLEB128S_loop (S fuel) n buffer = Some (buffer ++ bytes)
               /\ (1 <= length bytes)%nat
               /\ forall k, (1 <= k)%nat ->
                    ((length bytes <= k)%nat
                     <-> - 2 ^ (7 * Z.of_nat k - 1) <= n
                         < 2 ^ (7 * Z.of_nat k - 1))).
  { intros f n buffer Hn Hstop. exists [Int (Z.land n 0x7f)].
    rewrite encodeLEB128S_loop_step, Hstop by exact Hn.
    split; [reflexivity |]. split; [cbn; lia |].
    intros k Hk. cbn [length]. apply last_group_iff in Hstop.
    specialize (Hone k Hk). lia. }
  induction fuel as [| fuel IH]; intros n buffer Hn Hfuel.
  - apply Hlast; [exact Hn |]. apply last_group_iff.
    change (2 ^ (7 * Z.of_nat 1 - 1)) with 64 in Hfuel. lia.
  - destruct (last_group n) eqn:Hstop; [now apply Hlast |].
    assert (Hmid : ~ - 64 <= n < 64).
    { intros H. apply last_group_iff in H. congruence. }
    replace (7 * Z.of_nat (S (S fuel)) - 1)
      with (7 * Z.of_nat (S fuel) - 1 + 7) in Hfuel by lia.
    assert (Hq : - 2 ^ 31 <= n / 128 < 2 ^ 31).
    { split; [apply Z.div_le_lower_bound; lia
             | apply Z.div_lt_upper_bound; lia]. }
    assert (Hq' : - 2 ^ (7 * Z.of_nat (S fuel) - 1) <= n / 128
                  < 2 ^ (7 * Z.of_nat (S fuel) - 1)).
    { split; [apply div128_ge_pow | apply div128_lt_pow]; lia. }
    destruct (IH (n / 128) (buffer ++ [Int (Z.land n 0x7f + 128)]) Hq Hq')
      as (bytes & Hloop & Hlen & Hk).
    exists (Int (Z.land n 0x7f + 128) :: bytes).
    rewrite encodeLEB128S_loop_step, Hstop by exact Hn.
    split; [rewrite Hloop, <- app_assoc; reflexivity |].
    split; [cbn; lia |].
    intros k Hk1. cbn [length].
    destruct k as [| [| k]]; [lia | |].
    + change (2 ^ (7 * Z.of_nat 1 - 1)) with 64. lia.
    + specialize (Hk (S k) ltac:(lia)).
      rewrite (div128_ge_pow n (7 * Z.of_nat (S k) - 1)) in Hk by lia.
      rewrite (div128_lt_pow n (7 * Z.of_nat (S k) - 1)) in Hk by lia.
      replace (7 * Z.of_nat (S k) - 1 + 7)
        with (7 * Z.of_nat (S (S k)) - 1) in Hk by lia.
      rewrite <- Hk. lia.
Qed.

(** X5.  [encodeLEB128S] throws its [RangeError], carrying the argument,
    exactly when the argument is not an integer, and returns on every
    integer, of 32 bits or not. *)
Theorem encodeLEB128S_throws_iff_not_integer n :
  (isInteger n = None <-> encodeLEB128S n = Throw (RangeError n))
  /\ (isInteger n <> None <-> returns (encodeLEB128S n)).
Proof.
  destruct n as [z | | | |]; cbn [isInteger];
    try (split; split; [reflexivity | reflexivity | congruence
                        | intros [a Ha]; discriminate Ha]).
  destruct (leb_fuel_enough_S z) as [bytes Hb]. split; split.
  - discriminate.
  - rewrite Hb. discriminate.
  - intros _. exists bytes. exact Hb.
  - discriminate.
Qed.

Lemma encodeLEB128S_throws_iff_not_integer_witness :
  encodeLEB128S (Frac 1 1 1) = Throw (RangeError (Frac 1 1 1))
  /\ returns (encodeLEB128S (Int (2 ^ 40))).
Proof.
  split.
  - apply (proj1 (encodeLEB128S_throws_iff_not_integer (Frac 1 1 1))).
    reflexivity.
  - apply (proj2 (encodeLEB128S_throws_iff_not_integer (Int (2 ^ 40)))).
    discriminate.
Defined.

(** X6.  On the 32-bit signed integers [encodeLEB128S] returns a
    well-continued sequence of bytes that delimits itself: the reference
    decoder reads the number back and leaves the bytes that follow. *)
Theorem encodeLEB128S_self_delimiting n rest :
  - 2 ^ 31 <= n < 2 ^ 31 ->
  exists bytes,
    encodeLEB128S (Int n) = Ok bytes
    /\ continued bytes
    /\ decodeSigned (bytes ++ rest) = Some (n, rest).
Proof.
  intros Hn.
  destruct (encodeLEB128S_roundtrip n Hn) as (bytes & He & Hc & Hd).
  exists bytes. auto.
Qed.

Lemma encodeLEB128S_self_delimiting_witness :
  exists bytes,
    encodeLEB128S (Int (-123456)) = Ok bytes
    /\ continued bytes
    /\ decodeSigned (bytes ++ [Int 0x0b]) = Some (-123456, [Int 0x0b]).
Proof. apply (encodeLEB128S_self_delimiting (-123456) [Int 0x0b]). lia. Defined.

(** X7.  The signed encoding of a 32-bit integer is the shortest one: it
    fits in [k] bytes exactly when the number lies in
    [-2^(7k-1) .. 2^(7k-1) - 1]. *)
Theorem encodeLEB128S_shortest n bytes k :
  - 2 ^ 31 <= n < 2 ^ 31 -> (1 <= k)%nat ->
  encodeLEB128S (Int n) = Ok bytes ->
  ((length bytes <= k)%nat
   <-> - 2 ^ (7 * Z.of_nat k - 1) <= n < 2 ^ (7 * Z.of_nat k - 1)).
Proof.
  intros Hn Hk He. unfold encodeLEB128S, leb_fuel in He. cbn [isInteger] in He.
  rewrite js_or_0, ToInt32_small in He by exact Hn.
  destruct (encodeLEB128S_loop_length 7 n [] Hn) as (bytes' & Hloop & _ & Hlen).
  { cbn. lia. }
  rewrite Hloop in He. injection He as <-. now apply Hlen.
Qed.

Lemma encodeLEB128S_shortest_witness :
  (length [Int 0xc0; Int 0x00] <= 1)%nat
  <-> - 2 ^ (7 * Z.of_nat 1 - 1) <= 64 < 2 ^ (7 * Z.of_nat 1 - 1).
Proof.
  apply (encodeLEB128S_shortest 64 [Int 0xc0; Int 0x00] 1);
    [lia | lia | reflexivity].
Defined.

Lemma ToInt32_congruent z : (z - ToInt32 z) mod 2 ^ 32 = 0.
Proof.
  unfold ToInt32. apply Z.mod_divide; [lia |].
  exists ((z + 2 ^ 31) / 2 ^ 32).
  pose proof (Z.div_mod (z + 2 ^ 31) (2 ^ 32) ltac:(lia)). lia.
Qed.

Lemma ToInt32_eq_iff n m : ToInt32 n = ToInt32 m <-> (n - m) mod 2 ^ 32 = 0.
Proof.
  split; intros H.
  - pose proof (ToInt32_congruent n) as Hn.
    pose proof (ToInt32_congruent m) as Hm.
    apply Z.mod_divide in Hn; [| lia]. apply Z.mod_divide in Hm; [| lia].
    destruct Hn as [a Ha], Hm as [b Hb].
    apply Z.mod_divide; [lia |]. exists (a - b). lia.
  - apply ToInt32_unique; [apply ToInt32_range |].
    pose proof (ToInt32_congruent m) as Hm.
    apply Z.mod_divide in H; [| lia]. apply Z.mod_divide in Hm; [| lia].
    destruct H as [a Ha], Hm as [b Hb].
    apply Z.mod_divide; [lia |]. exists (a + b). lia.
Qed.

(** X8.  Two integers have the same signed encoding exactly when they are
    congruent modulo [2^32]; on the 32-bit signed integers the encoding is
    injective. *)
Theorem encodeLEB128S_same_iff n m :
  encodeLEB128S (Int n) = encodeLEB128S (Int m) <-> (n - m) mod 2 ^ 32 = 0.
Proof.
  rewrite <- ToInt32_eq_iff.
  assert (Htrunc : forall z,
             encodeLEB128S (Int z) = encodeLEB128S (Int (ToInt32 z))).
  { intros z. unfold encodeLEB128S. cbn [isInteger].
    now rewrite !js_or_0, ToInt32_idem. }
  split; intros H.
  - rewrite (Htrunc n), (Htrunc m) in H.
    destruct (encodeLEB128S_roundtrip _ (ToInt32_range n))
      as (bn & Hn & _ & Hdn).
    destruct (encodeLEB128S_roundtrip _ (ToInt32_range m))
      as (bm & Hm & _ & Hdm).
    rewrite Hn, Hm in H. injection H as <-.
    specialize (Hdn []). specialize (Hdm []). congruence.
  - rewrite (Htrunc n), (Htrunc m), H. reflexivity.
Qed.

Lemma encodeLEB128S_same_iff_witness :
  encodeLEB128S (Int (2 ^ 32 - 1)) = encodeLEB128S (Int (-1)).
Proof.
  apply (proj2 (encodeLEB128S_same_iff (2 ^ 32 - 1) (-1))). reflexivity.
Defined.

(** ** Vectors and sections, continued *)

Lemma flatMap_first_throw {T : Type} (f : T -> outcome (list number))
    before item after chunks e :
  Forall2 (fun i chunk => f i = Ok chunk) before chunks ->
  f item = Throw e ->
  flatMap f (before ++ item :: after) = Throw e.
Proof.
  intros Hbefore Hitem.
  induction Hbefore as [| i chunk before chunks Hi _ IH]; cbn [app flatMap].
  - rewrite Hitem. reflexivity.
  - rewrite Hi. cbn [bind]. rewrite IH. reflexivity.
Qed.

(** X9.  When an item cannot be encoded, a vector and a section throw the
    exception of the first such item; nothing of the items encoded before
    it is returned. *)
Theorem encodeSection_first_throw {T : Type} (f : T -> outcome (list number))
    id before item after chunks e :
  Forall2 (fun i chunk => f i = Ok chunk) before chunks ->
  f item = Throw e ->
  encodeVector (before ++ item :: after) f = Throw e
  /\ encodeSection id (before ++ item :: after) f = Throw e.
Proof.
  intros Hbefore Hitem.
  assert (Hv : encodeVector (before ++ item :: after) f = Throw e).
  { unfold encodeVector.
    destruct (leb_fuel_enough_U
                (Z.of_nat (length (before ++ item :: after)))) as [len ->].
    cbn [bind]. change (fun i : T => f i) with f.
    rewrite (flatMap_first_throw _ _ _ _ _ _ Hbefore Hitem). reflexivity. }
  split; [exact Hv |]. unfold encodeSection. rewrite Hv. reflexivity.
Qed.

Lemma encodeSection_first_throw_witness :
  encodeVector [Int 1; NaN; Frac 0 1 1] encodeLEB128U
  = Throw (RangeError NaN)
  /\ encodeSection (Int 3) [Int 1; NaN; Frac 0 1 1] encodeLEB128U
     = Throw (RangeError NaN).
Proof.
  apply (encodeSection_first_throw encodeLEB128U (Int 3)
           [Int 1] NaN [Frac 0 1 1] [[Int 1]]);
    [repeat constructor | reflexivity].
Defined.

(** X10.  A vector of fewer than [2^31] items that all encode is the item
    count followed by the encodings of the items in order: the decoder
    reads the count back and is left with exactly those encodings. *)
Theorem encodeVector_read_back {T : Type} (f : T -> outcome (list number))
    items chunks rest :
  Forall2 (fun i chunk => f i = Ok chunk) items chunks ->
  Z.of_nat (length items) < 2 ^ 31 ->
  exists bytes,
    encodeVector items f = Ok bytes
    /\ decodeUnsigned (bytes ++ rest)
       = Some (Z.of_nat (length items), concat chunks ++ rest).
Proof.
  intros Hall Hlen.
  destruct (encodeLEB128U_roundtrip_31 (Z.of_nat (length items)))
    as (len & He & _ & Hd); [lia |].
  exists (len ++ concat chunks). split.
  - unfold encodeVector. rewrite He. cbn [bind].
    change (fun i : T => f i) with f.
    rewrite (flatMap_concat _ _ _ Hall). reflexivity.
  - rewrite <- app_assoc. apply Hd.
Qed.

Lemma encodeVector_read_back_witness :
  exists bytes,
    encodeVector [Int 300; Int 2] encodeLEB128U = Ok bytes
    /\ decodeUnsigned (bytes ++ [Int 0x0b])
       = Some (2, concat [[Int 0xac; Int 0x02]; [Int 2]] ++ [Int 0x0b]).
Proof.
  apply (encodeVector_read_back encodeLEB128U [Int 300; Int 2]
           [[Int 0xac; Int 0x02]; [Int 2]] [Int 0x0b]);
    [repeat constructor | cbn; lia].
Defined.

Lemma firstn_length_app {A : Type} (l r : list A) :
  firstn (length l) (l ++ r) = l.
Proof.
  rewrite firstn_app, Nat.sub_diag, firstn_all. cbn. apply app_nil_r.
Qed.

Lemma skipn_length_app {A : Type} (l r : list A) :
  skipn (length l) (l ++ r) = r.
Proof. rewrite skipn_app, Nat.sub_diag, skipn_all. reflexivity. Qed.

(** X11.  Sections compose: a section with a byte for id and a payload
    shorter than [2^31], put in front of bytes that the reference reader of
    the framing splits into sections, is split off as one more section with
    that id and exactly that payload. *)
Theorem encodeSection_read_back {T : Type} (f : T -> outcome (list number))
    id items payload fuel rest more :
  0 <= id < 256 ->
  encodeVector items f = Ok payload ->
  Z.of_nat (length payload) < 2 ^ 31 ->
  parseSections fuel rest = Some more ->
  exists bytes,
    encodeSection (Int id) items f = Ok bytes
    /\ parseSections (S fuel) (bytes ++ rest) = Some ((id, payload) :: more).
Proof.
  intros Hid Hv Hlen Hrest.
  destruct (encodeLEB128U_roundtrip_31 (Z.of_nat (length payload)))
    as (prefix & He & _ & Hd); [lia |].
  exists (Int id :: prefix ++ payload). split.
  - unfold encodeSection. rewrite Hv. cbn [bind]. rewrite He. reflexivity.
  - cbn [app parseSections byte_of].
    replace ((0 <=? id) && (id <? 256)) with true by lia.
    rewrite <- app_assoc, Hd.
    rewrite (proj2 (Z.ltb_ge _ _)) by (rewrite length_app; lia).
    rewrite Nat2Z.id, skipn_length_app, firstn_length_app, Hrest.
    reflexivity.
Qed.

Lemma encodeSection_read_back_witness :
  exists bytes,
    encodeSection (Int 3) [Int 0; Int 1] encodeLEB128U = Ok bytes
    /\ parseSections 3 (bytes ++ [Int 5; Int 1; Int 0])
       = Some [(3, [Int 2; Int 0; Int 1]); (5, [Int 0])].
Proof.
  apply (encodeSection_read_back encodeLEB128U 3 [Int 0; Int 1]
           [Int 2; Int 0; Int 1] 2 [Int 5; Int 1; Int 0] [(5, [Int 0])]);
    [lia | reflexivity | cbn; lia | reflexivity].
Defined.

(** ** Byte codes of the enumerations *)

(** X12.  No two value types, export kinds or instruction kinds share a
    byte code, and no opcode is one of the markers 0x05 and 0x0b that
    close the branches of a conditional. *)
Theorem byte_codes_injective :
  (forall a b, ValueType_value a = ValueType_value b -> a = b)
  /\ (forall a b, ExportType.value a = ExportType.value b -> a = b)
  /\ (forall a b, InstrType.value a = InstrType.value b -> a = b)
  /\ (forall a, InstrType.value a <> 0x05 /\ InstrType.value a <> 0x0b).
Proof.
  repeat split.
  - intros [[] | []] [[] | []]; cbn; intros H; try reflexivity; discriminate.
  - intros [] []; cbn; intros H; try reflexivity; discriminate.
  - intros [] []; cbn; intros H; try reflexivity; discriminate.
  - destruct a; discriminate.
  - destruct a; discriminate.
Qed.

Lemma byte_codes_injective_witness :
  Ref RefType.funcRef = Ref RefType.funcRef.
Proof.
  apply (proj1 byte_codes_injective (Ref RefType.funcRef)
           (Ref RefType.funcRef)).
  reflexivity.
Defined.

Lemma ValueType_read_back t :
  byte_of (Int (ValueType_value t)) = Some (ValueType_value t)
  /\ ValueType_of_byte (ValueType_value t) = Some t.
Proof. destruct t as [[] | []]; split; reflexivity. Qed.

(** ** Function types *)

Lemma flatMap_ValueType ts :
  flatMap (fun a => Ok [Int (ValueType_value a)]) ts
  = Ok (map (fun a => Int (ValueType_value a)) ts).
Proof.
  induction ts as [| t ts IH]; cbn [flatMap map]; [reflexivity |].
  cbn [bind]. rewrite IH. reflexivity.
Qed.

Lemma parseValueTypes_map ts rest :
  parseValueTypes (length ts)
    (map (fun a => Int (ValueType_value a)) ts ++ rest)
  = Some (ts, rest).
Proof.
  induction ts as [| t ts IH]; cbn [length map app parseValueTypes];
    [reflexivity |].
  destruct (ValueType_read_back t) as [-> ->]. rewrite IH. reflexivity.
Qed.

Lemma encodeValueTypeVector_read_back ts rest :
  Z.of_nat (length ts) < 2 ^ 31 ->
  exists bytes,
    encodeVector ts (fun a => Ok [Int (ValueType_value a)]) = Ok bytes
    /\ parseValueTypeVector (bytes ++ rest) = Some (ts, rest).
Proof.
  intros Hlen.
  destruct (encodeLEB128U_roundtrip_31 (Z.of_nat (length ts)))
    as (len & He & _ & Hd); [lia |].
  exists (len ++ map (fun a => Int (ValueType_value a)) ts). split.
  - unfold encodeVector. rewrite He. cbn [bind].
    change (fun item : ValueType => Ok [Int (ValueType_value item)])
      with (fun a : ValueType => Ok [Int (ValueType_value a)]).
    rewrite flatMap_ValueType. reflexivity.
  - unfold parseValueTypeVector. rewrite <- app_assoc, Hd, Nat2Z.id.
    apply parseValueTypes_map.
Qed.

(** X13.  [encodeFuncType] never throws, and a function type with fewer
    than [2^31] parameters and results is read back from its encoding,
    parameters and results in their order. *)
Theorem encodeFuncType_read_back funcType rest :
  Z.of_nat (length (paramTypes funcType)) < 2 ^ 31 ->
  Z.of_nat (length (returnTypes funcType)) < 2 ^ 31 ->
  exists bytes,
    encodeFuncType funcType = Ok bytes
    /\ parseFuncType (bytes ++ rest) = Some (funcType, rest).
Proof.
  destruct funcType as [params results]. cbn [paramTypes returnTypes].
  intros Hp Hr.
  destruct (encodeValueTypeVector_read_back results rest Hr)
    as (rbytes & Hre & Hrd).
  destruct (encodeValueTypeVector_read_back params (rbytes ++ rest) Hp)
    as (pbytes & Hpe & Hpd).
  exists (Int 0x60 :: pbytes ++ rbytes). split.
  - unfold encodeFuncType. cbn [paramTypes returnTypes].
    rewrite Hpe. cbn [bind]. rewrite Hre. reflexivity.
  - cbn [app parseFuncType byte_of]. cbn [Z.leb Z.ltb Z.compare andb Z.eqb
      Pos.compare Pos.compare_cont Pos.eqb].
    rewrite <- app_assoc, Hpd, Hrd. reflexivity.
Qed.

Lemma encodeFuncType_read_back_witness :
  exists bytes,
    encodeFuncType binarySearch_type = Ok bytes
    /\ parseFuncType (bytes ++ [Int 3]) = Some (binarySearch_type, [Int 3]).
Proof.
  apply (encodeFuncType_read_back binarySearch_type [Int 3]); cbn; lia.
Defined.

(** ** Limits, continued *)

Lemma encodeLimits_effective limits :
  encodeLimits limits
  = encodeLimits {| min := min limits; max := effective_max limits |}.
Proof.
  unfold encodeLimits, effective_max. cbn [min max].
  destruct (max limits) as [m |]; [| reflexivity].
  destruct (truthy m) eqn:Ht; [rewrite Ht |]; reflexivity.
Qed.

Lemma encodeLimits_read_back_effective lo hi rest :
  u31 lo = true ->
  match hi with Some m => u31 m = true /\ truthy m = true | None => True end ->
  exists bytes,
    encodeLimits {| min := lo; max := hi |} = Ok bytes
    /\ parseLimits (bytes ++ rest) = Some ({| min := lo; max := hi |}, rest).
Proof.
  intros Hlo Hhi. unfold encodeLimits. cbn [min max].
  destruct hi as [m |].
  - destruct Hhi as [Hm Ht]. rewrite Ht.
    destruct (u31_roundtrip m Hm) as (hbytes & Hhe & Hhd).
    destruct (u31_roundtrip lo Hlo) as (lbytes & Hle & Hld).
    exists (Int 0x01 :: lbytes ++ hbytes). rewrite Hle, Hhe.
    split; [reflexivity |].
    cbn [app parseLimits byte_of]. cbn [Z.leb Z.ltb Z.compare andb Z.eqb
      Pos.compare Pos.compare_cont Pos.eqb].
    rewrite <- app_assoc, Hld.
    destruct lo; try discriminate. rewrite Hhd.
    destruct m; try discriminate. reflexivity.
  - destruct (u31_roundtrip lo Hlo) as (lbytes & Hle & Hld).
    exists (Int 0x00 :: lbytes). rewrite Hle. split; [reflexivity |].
    cbn [app parseLimits byte_of]. cbn [Z.leb Z.ltb Z.compare andb Z.eqb
      Pos.compare Pos.compare_cont Pos.eqb].
    rewrite Hld. destruct lo; try discriminate. reflexivity.
Qed.

(** X14.  Limits whose minimum lies below [2^31] and whose maximum is
    absent, or present, below [2^31] and not 0, are read back from their
    encoding. *)
Theorem encodeLimits_read_back limits rest :
  u31 (min limits) = true ->
  match max limits with
  | Some m => u31 m = true /\ m <> Int 0
  | None => True
  end ->
  exists bytes,
    encodeLimits limits = Ok bytes
    /\ parseLimits (bytes ++ rest) = Some (limits, rest).
Proof.
  destruct limits as [lo hi]. cbn [min max]. intros Hlo Hhi.
  apply encodeLimits_read_back_effective; [exact Hlo |].
  destruct hi as [m |]; [| exact I]. destruct Hhi as [Hm Hz].
  split; [exact Hm |].
  destruct m as [z | | | |]; try discriminate. cbn [truthy].
  apply negb_true_iff, Z.eqb_neq. congruence.
Qed.

Lemma encodeLimits_read_back_witness :
  exists bytes,
    encodeLimits {| min := Int 1; max := Some (Int 65536) |} = Ok bytes
    /\ parseLimits (bytes ++ [])
       = Some ({| min := Int 1; max := Some (Int 65536) |}, []).
Proof.
  apply (encodeLimits_read_back {| min := Int 1; max := Some (Int 65536) |} []).
  - reflexivity.
  - cbn. split; [reflexivity | discriminate].
Defined.

(** X15.  Two limits with bounds below [2^31] have the same encoding
    exactly when their minima are equal and their maxima are equal once a
    maximum of 0 is taken for no maximum: apart from that one confusion the
    encoding is injective. *)
Theorem encodeLimits_same_iff a b :
  u31 (min a) = true -> u31 (min b) = true ->
  match max a with Some m => u31 m = true | None => True end ->
  match max b with Some m => u31 m = true | None => True end ->
  (encodeLimits a = encodeLimits b
   <-> min a = min b /\ effective_max a = effective_max b).
Proof.
  intros Hla Hlb Hha Hhb.
  assert (Heff : forall l,
             match max l with Some m => u31 m = true | None => True end ->
             match effective_max l with
             | Some m => u31 m = true /\ truthy m = true
             | None => True
             end).
  { intros l Hl. unfold effective_max.
    destruct (max l) as [m |]; [| exact I].
    destruct (truthy m) eqn:Ht; [split; assumption | exact I]. }
  rewrite (encodeLimits_effective a), (encodeLimits_effective b).
  split.
  - intros H.
    destruct (encodeLimits_read_back_effective _ _ [] Hla (Heff a Hha))
      as (abytes & Hae & Had).
    destruct (encodeLimits_read_back_effective _ _ [] Hlb (Heff b Hhb))
      as (bbytes & Hbe & Hbd).
    rewrite Hae, Hbe in H. injection H as <-.
    rewrite Had in Hbd. injection Hbd as Hmin Hmax. auto.
  - intros [Hmin Hmax]. rewrite Hmin, Hmax. reflexivity.
Qed.

Lemma encodeLimits_same_iff_witness :
  encodeLimits {| min := Int 7; max := Some (Int 0) |}
  = encodeLimits {| min := Int 7; max := None |}.
Proof.
  apply (proj2 (encodeLimits_same_iff
                  {| min := Int 7; max := Some (Int 0) |}
                  {| min := Int 7; max := None |}
                  eq_refl eq_refl eq_refl I)).
  split; reflexivity.
Defined.

(** X16.  [encodeLimits] returns exactly when the minimum is an integer
    and the maximum, if there is one that is neither 0 nor NaN, is an
    integer too; a maximum of NaN is skipped without an error.  Otherwise
    it throws, and a bad minimum is reported before a bad maximum. *)
Theorem encodeLimits_returns_iff limits :
  (returns (encodeLimits limits)
   <-> isInteger (min limits) <> None
       /\ match effective_max limits with
          | Some m => isInteger m <> None
          | None => True
          end)
  /\ (isInteger (min limits) = None ->
      encodeLimits limits = Throw (RangeError (min limits))).
Proof.
  rewrite encodeLimits_effective.
  destruct limits as [lo hi]. unfold effective_max. cbn [min max].
  assert (Hlo : forall x, isInteger x = None ->
                          encodeLEB128U x = Throw (RangeError x)).
  { intros x H. unfold encodeLEB128U. rewrite H. reflexivity. }
  assert (Hint : forall x, isInteger x <> None -> returns (encodeLEB128U x)).
  { intros [z | | | |] H; try (cbn in H; congruence).
    apply leb_fuel_enough_U. }
  split.
  - unfold encodeLimits, returns. cbn [min max].
    destruct hi as [m |]; [destruct (truthy m) eqn:Ht |].
    + rewrite Ht. split.
      * intros [bytes H].
        destruct (isInteger lo) eqn:El;
          [| rewrite (Hlo lo El) in H; discriminate H].
        split; [discriminate |].
        destruct (Hint lo ltac:(congruence)) as [lbytes Hl].
        rewrite Hl in H. cbn [bind] in H.
        destruct (isInteger m) eqn:Em; [discriminate |].
        unfold encodeLEB128U in H. rewrite Em in H. discriminate H.
      * intros [Hl Hm].
        destruct (Hint lo Hl) as [lbytes ->].
        destruct (Hint m Hm) as [hbytes ->]. cbn [bind]. eauto.
    + split.
      * intros [bytes H].
        destruct (isInteger lo) eqn:El;
          [| rewrite (Hlo lo El) in H; discriminate H].
        split; [discriminate | exact I].
      * intros [Hl _]. destruct (Hint lo Hl) as [lbytes ->]. cbn [bind]. eauto.
    + split.
      * intros [bytes H].
        destruct (isInteger lo) eqn:El;
          [| rewrite (Hlo lo El) in H; discriminate H].
        split; [discriminate | exact I].
      * intros [Hl _]. destruct (Hint lo Hl) as [lbytes ->]. cbn [bind]. eauto.
  - intros El. unfold encodeLimits. cbn [min max].
    destruct hi as [m |]; [destruct (truthy m) eqn:Ht; [rewrite Ht |] |];
      rewrite (Hlo lo El); reflexivity.
Qed.

Lemma encodeLimits_returns_iff_witness :
  returns (encodeLimits {| min := Int 1; max := Some NaN |})
  /\ encodeLimits {| min := Infinity; max := Some (Frac 1 1 1) |}
     = Throw (RangeError Infinity).
Proof.
  split.
  - apply (proj1 (encodeLimits_returns_iff
                    {| min := Int 1; max := Some NaN |})).
    split; [discriminate | exact I].
  - apply (proj2 (encodeLimits_returns_iff
                    {| min := Infinity; max := Some (Frac 1 1 1) |})).
    reflexivity.
Defined.

(** ** Exports, continued *)

Lemma TextEncoder_encode_String c s :
  TextEncoder_encode (String c s)
  = Int (Z.of_N (N_of_ascii c)) :: TextEncoder_encode s.
Proof. reflexivity. Qed.

Lemma TextEncoder_encode_length s :
  length (TextEncoder_encode s) = String.length s.
Proof.
  induction s as [| c s IH]; [reflexivity |].
  rewrite TextEncoder_encode_String. cbn [length String.length]. now rewrite IH.
Qed.

Lemma parseName_TextEncoder s rest :
  parseName (String.length s) (TextEncoder_encode s ++ rest) = Some (s, rest).
Proof.
  induction s as [| c s IH]; [reflexivity |].
  rewrite TextEncoder_encode_String.
  cbn [String.length app parseName byte_of].
  pose proof (N_ascii_bounded c) as Hc.
  replace ((0 <=? Z.of_N (N_of_ascii c)) && (Z.of_N (N_of_ascii c) <? 256))
    with true by lia.
  rewrite IH, N2Z.id, ascii_N_embedding. reflexivity.
Qed.

(** X17.  An export whose name is shorter than [2^31] bytes and whose
    index lies below [2^31] is read back from its encoding: the name, the
    kind and the index. *)
Theorem encodeExport_read_back exportEntry rest :
  Z.of_nat (String.length (name exportEntry)) < 2 ^ 31 ->
  u31 (index exportEntry) = true ->
  exists bytes,
    encodeExport exportEntry = Ok bytes
    /\ parseExport (bytes ++ rest) = Some (exportEntry, rest).
Proof.
  destruct exportEntry as [s kind idx]. cbn [name type index].
  intros Hlen Hidx.
  destruct (u31_roundtrip idx Hidx) as (ibytes & Hie & Hid).
  destruct (encodeLEB128U_roundtrip_31 (Z.of_nat (String.length s)))
    as (lbytes & Hle & _ & Hld); [lia |].
  exists (lbytes ++ TextEncoder_encode s ++ Int (ExportType.value kind)
            :: ibytes).
  split.
  - unfold encodeExport. cbn [name type index]. cbv zeta.
    rewrite TextEncoder_encode_length, Hle, Hie. reflexivity.
  - unfold parseExport. rewrite <- app_assoc, Hld, Nat2Z.id.
    rewrite <- app_assoc, parseName_TextEncoder. cbn [app].
    replace (byte_of (Int (ExportType.value kind)))
      with (Some (ExportType.value kind)) by (destruct kind; reflexivity).
    replace (ExportType_of_byte (ExportType.value kind)) with (Some kind)
      by (destruct kind; reflexivity).
    rewrite Hid. destruct idx; try discriminate. reflexivity.
Qed.

Lemma encodeExport_read_back_witness :
  exists bytes,
    encodeExport {| name := "memory"; type := ExportType.Memory;
                    index := Int 0 |} = Ok bytes
    /\ parseExport (bytes ++ [Int 10])
       = Some ({| name := "memory"; type := ExportType.Memory;
                  index := Int 0 |}, [Int 10]).
Proof.
  apply (encodeExport_read_back
           {| name := "memory"; type := ExportType.Memory; index := Int 0 |}
           [Int 10]);
    [cbn; lia | reflexivity].
Defined.

(** ** Instructions, continued *)

(** X18.  Every sequence of instructions whose unsigned immediates lie
    below [2^31] and whose constants are 32-bit signed integers is read
    back from its encoding, conditionals nested to any depth included; in
    particular two such sequences with the same encoding are equal. *)
Theorem encodeInstructions_read_back instrs stop rest :
  forallb encodable instrs = true ->
  stop = 0x05 \/ stop = 0x0b ->
  exists bytes,
    flatMap encodeInstruction instrs = Ok bytes
    /\ parseInstrs (S (length bytes)) (bytes ++ Int stop :: rest)
       = Some (instrs, stop, rest).
Proof.
  intros Henc Hstop.
  destruct (parseInstrs_flatMap instrs Henc) as (bytes & He & Hp).
  exists bytes. split; [exact He |]. apply Hp; [exact Hstop | lia].
Qed.

Lemma encodeInstructions_read_back_witness :
  exists bytes,
    flatMap encodeInstruction (instructions binarySearch_body) = Ok bytes
    /\ parseInstrs (S (length bytes)) (bytes ++ Int 0x0b :: [])
       = Some (instructions binarySearch_body, 0x0b, []).
Proof.
  apply (encodeInstructions_read_back
           (instructions binarySearch_body) 0x0b []);
    [reflexivity | right; reflexivity].
Defined.

Lemma returns_bind {A B : Type} (c : outcome A) (k : A -> outcome B) :
  returns (bind c k) <-> exists a, c = Ok a /\ returns (k a).
Proof.
  unfold returns. destruct c as [a | e |]; cbn [bind]; split.
  - intros H. exists a. auto.
  - intros (a' & Ha & H). injection Ha as <-. exact H.
  - intros [b H]. discriminate H.
  - intros (a & Ha & _). discriminate Ha.
  - intros [b H]. discriminate H.
  - intros (a & Ha & _). discriminate Ha.
Qed.

Lemma returns_Ok {A : Type} (a : A) : returns (Ok a).
Proof. exists a. reflexivity. Qed.

Lemma encodeLEB128U_returns_iff n :
  returns (encodeLEB128U n) <-> is_int n = true.
Proof.
  destruct n as [z | | | |];
    [split; [reflexivity | intros _; apply leb_fuel_enough_U] | ..];
    (split; [intros [a Ha]; discriminate Ha | discriminate]).
Qed.

Lemma encodeLEB128S_returns_iff n :
  returns (encodeLEB128S n) <-> is_int n = true.
Proof.
  destruct n as [z | | | |];
    [split; [reflexivity | intros _; apply leb_fuel_enough_S] | ..];
    (split; [intros [a Ha]; discriminate Ha | discriminate]).
Qed.

Lemma flatMap_returns_iff {T : Type} (f : T -> outcome (list number))
    (ok : T -> bool) items :
  Forall (fun item => returns (f item) <-> ok item = true) items ->
  (returns (flatMap f items) <-> forallb ok items = true).
Proof.
  induction 1 as [| item items Hitem _ IH]; cbn [flatMap forallb].
  - split; [reflexivity | intros _; apply returns_Ok].
  - rewrite returns_bind, andb_true_iff, <- Hitem, <- IH. split.
    + intros (head & Hhead & H). apply returns_bind in H.
      destruct H as (tail & Htail & _). unfold returns. eauto.
    + intros [[head Hhead] [tail Htail]]. exists head.
      split; [exact Hhead |]. rewrite Htail. apply returns_Ok.
Qed.

(** X19.  [encodeInstruction] returns exactly when every immediate in the
    instruction, at any depth, is an integer, in range or not; otherwise it
    throws. *)
Theorem encodeInstruction_returns_iff instruction :
  (returns (encodeInstruction instruction) <-> integral instruction = true)
  /\ (integral instruction = false -> throws (encodeInstruction instruction)).
Proof.
  assert (Hiff : forall i,
             returns (encodeInstruction i) <-> integral i = true).
  { induction i as [i Htag | t thenInstrs elseInstrs Hthen Helse]
      using Instruction_nested_ind.
    - destruct i; try (contradiction Htag; reflexivity);
        cbn [encodeInstruction integral];
        try (split; [reflexivity | intros _; apply returns_Ok]).
      + rewrite returns_bind, andb_true_iff,
          <- !encodeLEB128U_returns_iff. split.
        * intros (a & Ha & H). apply returns_bind in H.
          destruct H as (o & Ho & _). unfold returns. eauto.
        * intros [[a Ha] [o Ho]]. exists a. split; [exact Ha |].
          rewrite Ho. apply returns_Ok.
      + rewrite returns_bind, <- encodeLEB128S_returns_iff. split.
        * intros (c & Hc & _). unfold returns. eauto.
        * intros [c Hc]. exists c. split; [exact Hc | apply returns_Ok].
      + rewrite returns_bind, <- encodeLEB128U_returns_iff. split.
        * intros (c & Hc & _). unfold returns. eauto.
        * intros [c Hc]. exists c. split; [exact Hc | apply returns_Ok].
      + rewrite returns_bind, <- encodeLEB128U_returns_iff. split.
        * intros (c & Hc & _). unfold returns. eauto.
        * intros [c Hc]. exists c. split; [exact Hc | apply returns_Ok].
      + rewrite returns_bind, <- encodeLEB128U_returns_iff. split.
        * intros (c & Hc & _). unfold returns. eauto.
        * intros [c Hc]. exists c. split; [exact Hc | apply returns_Ok].
      + rewrite returns_bind, <- encodeLEB128U_returns_iff. split.
        * intros (c & Hc & _). unfold returns. eauto.
        * intros [c Hc]. exists c. split; [exact Hc | apply returns_Ok].
      + rewrite returns_bind, <- encodeLEB128U_returns_iff. split.
        * intros (c & Hc & _). unfold returns. eauto.
        * intros [c Hc]. exists c. split; [exact Hc | apply returns_Ok].
    - cbn [encodeInstruction integral].
      rewrite returns_bind, andb_true_iff.
      rewrite <- (flatMap_returns_iff encodeInstruction integral _ Hthen).
      rewrite <- (flatMap_returns_iff encodeInstruction integral _ Helse).
      split.
      + intros (a & Ha & H). apply returns_bind in H.
        destruct H as (b & Hb & _). unfold returns. eauto.
      + intros [[a Ha] [b Hb]]. exists a. split; [exact Ha |].
        rewrite Hb. apply returns_Ok. }
  split; [apply Hiff |].
  intros Hno. pose proof (encodeInstruction_ends instruction) as Hends.
  destruct (encodeInstruction instruction) as [bytes | e |] eqn:He.
  - assert (Hyes : integral instruction = true)
      by (apply Hiff; rewrite He; apply returns_Ok).
    congruence.
  - exists e. reflexivity.
  - contradiction Hends. reflexivity.
Qed.

Lemma encodeInstruction_returns_iff_witness :
  returns (encodeInstruction (iLocalGet (Int (-3))))
  /\ throws (encodeInstruction (iIf i32 [iDrop] [iI32Const NaN])).
Proof.
  split.
  - apply (proj2 (proj1 (encodeInstruction_returns_iff
                           (iLocalGet (Int (-3)))))).
    reflexivity.
  - apply (proj2 (encodeInstruction_returns_iff
                    (iIf i32 [iDrop] [iI32Const NaN]))).
    reflexivity.
Defined.

(** ** Function bodies *)

Lemma parseLocals_flatMap (g : number * ValueType -> outcome (list number))
    decls :
  (forall count t,
     g (count, t)
     = (c <- encodeLEB128U count ;; Ok (c ++ [Int (ValueType_value t)]))) ->
  Forall (fun d => u31 (fst d) = true) decls ->
  exists bytes,
    flatMap g decls = Ok bytes
    /\ forall rest,
         parseLocals (length decls) (bytes ++ rest) = Some (decls, rest).
Proof.
  intros Hg. induction 1 as [| [count t] decls Hcount _ IH].
  - exists []. split; reflexivity.
  - cbn [fst] in Hcount. destruct IH as (tail & Ht & Hp).
    destruct (u31_roundtrip count Hcount) as (cbytes & Hce & Hcd).
    exists ((cbytes ++ [Int (ValueType_value t)]) ++ tail). split.
    + cbn [flatMap]. rewrite Hg, Hce. cbn [bind]. rewrite Ht. reflexivity.
    + intros rest. cbn [length parseLocals].
      rewrite <- !app_assoc, Hcd. destruct count; try discriminate.
      cbn [app]. destruct (ValueType_read_back t) as [-> ->].
      rewrite Hp. reflexivity.
Qed.

(** X20.  A function body with fewer than [2^31] local declarations, run
    lengths below [2^31] and encodable instructions is encoded, and when
    the encoding is shorter than [2^31] bytes the reference reader gives
    the body back: the size prefix counts exactly the bytes of the
    declarations, the instructions and the closing 0x0b. *)
Theorem encodeFuncBody_read_back body rest :
  Z.of_nat (length (locals body)) < 2 ^ 31 ->
  Forall (fun d => u31 (fst d) = true) (locals body) ->
  forallb encodable (instructions body) = true ->
  exists bytes,
    encodeFuncBody body = Ok bytes
    /\ (Z.of_nat (length bytes) < 2 ^ 31 ->
        parseFuncBody (bytes ++ rest) = Some (body, rest)).
Proof.
  destruct body as [decls instrs]. cbn [locals instructions].
  intros Hcount Hdecls Hinstrs.
  destruct (encodeLEB128U_roundtrip_31 (Z.of_nat (length decls)))
    as (cbytes & Hce & _ & Hcd); [lia |].
  destruct (parseLocals_flatMap
              (fun item : number * ValueType =>
                 (fun '(count, type) =>
                    c <- encodeLEB128U count ;;
                    Ok (c ++ [Int (ValueType_value type)])) item)
              decls ltac:(intros; reflexivity) Hdecls)
    as (dbytes & Hde & Hdp).
  destruct (parseInstrs_flatMap instrs Hinstrs) as (code & Hie & Hip).
  set (encodedBody := (cbytes ++ dbytes) ++ code ++ [Int 0x0b]).
  destruct (leb_fuel_enough_U (Z.of_nat (length encodedBody))) as [sz Hsz].
  exists (sz ++ encodedBody). split.
  - unfold encodeFuncBody, encodeVector. cbn [locals instructions].
    rewrite Hce. cbn [bind]. rewrite Hde. cbn [bind]. rewrite Hie.
    cbn [bind]. cbv zeta. fold encodedBody. rewrite Hsz. reflexivity.
  - intros Hlen. rewrite length_app in Hlen.
    destruct (encodeLEB128U_roundtrip_31 (Z.of_nat (length encodedBody)))
      as (sz' & Hsz' & _ & Hsd); [lia |].
    rewrite Hsz in Hsz'. injection Hsz' as <-.
    unfold parseFuncBody. rewrite <- app_assoc, Hsd.
    rewrite (proj2 (Z.ltb_ge _ _)) by (rewrite length_app; lia).
    cbv zeta. rewrite Nat2Z.id, firstn_length_app, skipn_length_app.
    unfold encodedBody. rewrite <- !app_assoc, Hcd, Nat2Z.id, Hdp.
    rewrite Hip by (auto || (rewrite length_app; cbn; lia)).
    reflexivity.
Qed.

Lemma encodeFuncBody_read_back_witness :
  exists bytes,
    encodeFuncBody binarySearch_body = Ok bytes
    /\ parseFuncBody (bytes ++ []) = Some (binarySearch_body, []).
Proof.
  destruct (encodeFuncBody_read_back binarySearch_body [])
    as (bytes & Hbytes & Hread).
  - cbn. lia.
  - repeat constructor.
  - reflexivity.
  - exists bytes. split; [exact Hbytes |]. apply Hread.
    vm_compute in Hbytes. injection Hbytes as <-. vm_compute. reflexivity.
Defined.

(** ** The binary search *)

Lemma tsBinarySearch_more_fuel fuel :
  forall arr n start end_ r,
    tsBinarySearch fuel arr n start end_ = Some r ->
    tsBinarySearch (S fuel) arr n start end_ = Some r.
Proof.
  induction fuel as [| fuel IH]; intros arr n start end_ r H;
    [discriminate H |].
  remember (S fuel) as fuel' eqn:E.
  cbn [tsBinarySearch]. cbv zeta. subst fuel'.
  cbn [tsBinarySearch] in H. cbv zeta in H.
  destruct (eq_element n (element arr ((start + end_) / 2))); [exact H |].
  destruct ((start + end_) / 2 =? start); [exact H |].
  destruct (gt_element n (element arr ((start + end_) / 2)));
    apply IH; exact H.
Qed.

(** What a search between [start <= end_] returns. *)
Lemma tsBinarySearch_spec fuel :
  forall arr n start end_,
    start <= end_ -> (Z.to_nat (end_ - start) < fuel)%nat ->
    exists r,
      tsBinarySearch fuel arr n start end_ = Some r
      /\ (r = -1
          \/ (start <= r
              /\ (r < end_ \/ start = end_ /\ r = start)
              /\ eq_element n (element arr r) = true)).
Proof.
  induction fuel as [| fuel IH]; intros arr n start end_ Hle Hfuel; [lia |].
  cbn [tsBinarySearch]. cbv zeta.
  set (mid := (start + end_) / 2).
  assert (Hmid : start <= mid <= end_ /\ (start < end_ -> mid < end_)).
  { subst mid. pose proof (Z.div_mod (start + end_) 2 ltac:(lia)).
    pose proof (Z.mod_pos_bound (start + end_) 2 ltac:(lia)). lia. }
  destruct (eq_element n (element arr mid)) eqn:Heq.
  - exists mid. split; [reflexivity |]. right. split; [lia |].
    split; [| exact Heq].
    destruct (Z.eq_dec start end_); [right | left]; lia.
  - destruct (Z.eqb_spec mid start) as [Hs | Hs]; [eauto |].
    destruct (gt_element n (element arr mid)).
    + destruct (IH arr n mid end_) as (r & Hr & Hp); [lia | lia |].
      exists r. split; [exact Hr |].
      destruct Hp as [-> | (H1 & H2 & H3)]; [left; reflexivity | right].
      split; [lia |]. split; [left; lia | exact H3].
    + destruct (IH arr n start mid) as (r & Hr & Hp); [lia | lia |].
      exists r. split; [exact Hr |].
      destruct Hp as [-> | (H1 & H2 & H3)]; [left; reflexivity | right].
      split; [lia |]. split; [left; lia | exact H3].
Qed.

(** X21.  Between bounds [start <= end], [tsBinarySearch] ends within
    [end - start + 1] calls, and what it returns is -1 or an index from
    [start] on at which the array holds a number equal to [n]. *)
Theorem tsBinarySearch_sound fuel arr n start end_ :
  - 2 ^ 52 <= start -> start <= end_ -> end_ <= 2 ^ 52 ->
  (Z.to_nat (end_ - start) < fuel)%nat ->
  exists r,
    tsBinarySearch fuel arr n start end_ = Some r
    /\ (r = -1
        \/ (start <= r <= end_
            /\ exists x, element arr r = Some x /\ num_eq n x = true)).
Proof.
  intros _ Hle _ Hfuel.
  destruct (tsBinarySearch_spec fuel arr n start end_ Hle Hfuel)
    as (r & Hr & Hp).
  exists r. split; [exact Hr |].
  destruct Hp as [-> | (H1 & H2 & H3)]; [left; reflexivity | right].
  split; [lia |].
  destruct (element arr r) as [x |]; [eauto | discriminate H3].
Qed.

Lemma tsBinarySearch_sound_witness :
  exists r,
    tsBinarySearch 8 (map Int [-4; -2; 0; 2; 8; 13; 21; 54]) (Int 0) 0 7
    = Some r
    /\ (r = -1
        \/ (0 <= r <= 7
            /\ exists x,
                 element (map Int [-4; -2; 0; 2; 8; 13; 21; 54]) r = Some x
                 /\ num_eq (Int 0) x = true)).
Proof.
  apply (tsBinarySearch_sound 8 (map Int [-4; -2; 0; 2; 8; 13; 21; 54])
           (Int 0) 0 7); [lia | lia | lia | cbn; lia].
Defined.

(** X22.  With [0 <= start < end] the search never looks at the index
    [end]: it does not return it, so a number that sits there only is
    reported as missing. *)
Theorem tsBinarySearch_never_end fuel arr n start end_ r :
  0 <= start -> start < end_ -> end_ <= 2 ^ 52 ->
  tsBinarySearch fuel arr n start end_ = Some r ->
  r < end_.
Proof.
  intros H0 Hlt _ Hr.
  destruct (tsBinarySearch_spec
              (S (fuel + Z.to_nat (end_ - start))) arr n start end_)
    as (r' & Hr' & Hp); [lia | lia |].
  assert (Hmore : forall k,
             tsBinarySearch (k + fuel) arr n start end_ = Some r).
  { induction k as [| k IHk]; [exact Hr |].
    cbn [Nat.add]. now apply tsBinarySearch_more_fuel. }
  specialize (Hmore (S (Z.to_nat (end_ - start)))).
  replace (S (Z.to_nat (end_ - start)) + fuel)%nat
    with (S (fuel + Z.to_nat (end_ - start))) in Hmore by lia.
  rewrite Hmore in Hr'. injection Hr' as <-.
  destruct Hp as [-> | (H1 & H2 & H3)]; lia.
Qed.

Lemma tsBinarySearch_never_end_witness :
  tsBinarySearch 8 (map Int [1; 2; 3; 4; 5; 6; 7]) (Int 7) 0 6 = Some (-1)
  /\ -1 < 6.
Proof.
  split; [reflexivity |].
  apply (tsBinarySearch_never_end 8 (map Int [1; 2; 3; 4; 5; 6; 7]) (Int 7)
           0 6 (-1)); [lia | lia | lia | reflexivity].
Defined.

Lemma StronglySorted_nth_error zs :
  StronglySorted Z.le zs ->
  forall a b x y,
    (a <= b)%nat ->
    nth_error zs a = Some x -> nth_error zs b = Some y -> x <= y.
Proof.
  induction 1 as [| z zs Hs IH Hall]; intros a b x y Hab Ha Hb.
  - destruct a; discriminate Ha.
  - destruct a as [| a], b as [| b]; cbn [nth_error] in Ha, Hb; try lia.
    + injection Ha as <-. injection Hb as <-. lia.
    + injection Ha as <-. rewrite Forall_forall in Hall.
      apply Hall. eapply nth_error_In. exact Hb.
    + eapply IH; [| exact Ha | exact Hb]. lia.
Qed.

Lemma element_map_Int zs i :
  0 <= i ->
  element (map Int zs) i = option_map Int (nth_error zs (Z.to_nat i)).
Proof.
  intros Hi. unfold element.
  destruct (Z.ltb_spec i 0); [lia |]. apply nth_error_map.
Qed.

Lemma tsBinarySearch_finds fuel :
  forall zs z start end_,
    StronglySorted Z.le zs ->
    0 <= start -> end_ < Z.of_nat (length zs) ->
    (exists i, start <= i < end_ /\ nth_error zs (Z.to_nat i) = Some z) ->
    (Z.to_nat (end_ - start) < fuel)%nat ->
    exists r,
      tsBinarySearch fuel (map Int zs) (Int z) start end_ = Some r
      /\ start <= r < end_
      /\ nth_error zs (Z.to_nat r) = Some z.
Proof.
  induction fuel as [| fuel IH];
    intros zs z start end_ Hs H0 Hlen (i & Hi & Hz) Hfuel; [lia |].
  cbn [tsBinarySearch]. cbv zeta.
  set (mid := (start + end_) / 2).
  assert (Hmid : start <= mid < end_ /\ start + end_ <= 2 * mid + 1).
  { subst mid. pose proof (Z.div_mod (start + end_) 2 ltac:(lia)).
    pose proof (Z.mod_pos_bound (start + end_) 2 ltac:(lia)). lia. }
  rewrite element_map_Int by lia.
  destruct (nth_error zs (Z.to_nat mid)) as [m |] eqn:Hm.
  2:{ apply nth_error_None in Hm. lia. }
  cbn [option_map eq_element gt_element num_eq num_gt].
  destruct (Z.eqb_spec z m) as [-> | Hne].
  - exists mid. split; [reflexivity |]. split; [lia | exact Hm].
  - assert (Him : i <> mid) by (intros ->; congruence).
    destruct (Z.eqb_spec mid start) as [Hst | Hst]; [lia |].
    destruct (Z.ltb_spec m z) as [Hgt | Hle].
    + destruct (IH zs z mid end_ Hs) as (r & Hr & Hrange & Hfound);
        [lia | lia | | lia |].
      { exists i. split; [| exact Hz].
        destruct (Z.lt_ge_cases i mid) as [Hlt | Hge]; [| lia].
        pose proof (StronglySorted_nth_error zs Hs
                      (Z.to_nat i) (Z.to_nat mid) z m ltac:(lia) Hz Hm).
        lia. }
      exists r. split; [exact Hr |]. split; [lia | exact Hfound].
    + destruct (IH zs z start mid Hs) as (r & Hr & Hrange & Hfound);
        [lia | lia | | lia |].
      { exists i. split; [| exact Hz].
        destruct (Z.lt_ge_cases i mid) as [Hlt | Hge]; [lia |].
        pose proof (StronglySorted_nth_error zs Hs
                      (Z.to_nat mid) (Z.to_nat i) m z ltac:(lia) Hm Hz).
        lia. }
      exists r. split; [exact Hr |]. split; [lia | exact Hfound].
Qed.

(** X23.  On a sorted array of integers, a search between indices
    [start < end] of the array finds every integer that occurs at an index
    from [start] up to, but not including, [end]: it returns an index in
    that range where the array holds the integer. *)
Theorem tsBinarySearch_complete fuel zs z start end_ i :
  StronglySorted Z.le zs ->
  0 <= start -> end_ < Z.of_nat (length zs) -> Z.of_nat (length zs) <= 2 ^ 32 ->
  start <= i < end_ -> nth_error zs (Z.to_nat i) = Some z ->
  (Z.to_nat (end_ - start) < fuel)%nat ->
  exists r,
    tsBinarySearch fuel (map Int zs) (Int z) start end_ = Some r
    /\ start <= r < end_
    /\ nth_error zs (Z.to_nat r) = Some z.
Proof.
  intros Hs H0 Hlen _ Hi Hz Hfuel.
  apply tsBinarySearch_finds; eauto.
Qed.

Lemma tsBinarySearch_complete_witness :
  exists r,
    tsBinarySearch 8 (map Int [-4; -2; 0; 2; 8; 13; 21; 54]) (Int 21) 0 7
    = Some r
    /\ 0 <= r < 7
    /\ nth_error [-4; -2; 0; 2; 8; 13; 21; 54] (Z.to_nat r) = Some 21.
Proof.
  apply (tsBinarySearch_complete 8 [-4; -2; 0; 2; 8; 13; 21; 54] 21 0 7 6);
    [ repeat constructor; lia | lia | cbn; lia | cbn; lia | lia
    | reflexivity | cbn; lia ].
Defined.

(** X24.  When [start] is [end + 1] and [n] is neither equal to nor
    greater than [arr[end]] (as when that element is undefined), the
    function calls itself with the same bounds again: the recursion never
    ends.  The search of an empty array between 0 and -1 is such a call. *)
Theorem tsBinarySearch_endless fuel arr n end_ :
  - 2 ^ 52 <= end_ < 2 ^ 52 ->
  eq_element n (element arr end_) = false ->
  gt_element n (element arr end_) = false ->
  tsBinarySearch fuel arr n (end_ + 1) end_ = None.
Proof.
  intros _ Heq Hgt. induction fuel as [| fuel IH]; [reflexivity |].
  cbn [tsBinarySearch]. cbv zeta.
  replace ((end_ + 1 + end_) / 2) with end_
    by (apply Z.div_unique with (r := 1); lia).
  rewrite Heq, Hgt. destruct (Z.eqb_spec end_ (end_ + 1)); [lia | exact IH].
Qed.

Lemma tsBinarySearch_endless_witness :
  tsBinarySearch 1000 [] (Int 5) (-1 + 1) (-1) = None.
Proof.
  apply (tsBinarySearch_endless 1000 [] (Int 5) (-1));
    [lia | reflexivity | reflexivity].
Defined.

(** ** Writing an array into the memory *)

Lemma length_update cells k v : length (update cells k v) = length cells.
Proof.
  revert k. induction cells as [| c cells IH]; intros [| k]; cbn;
    auto.
Qed.

Lemma nth_error_update cells k v j :
  nth_error (update cells k v) j
  = if (j =? k)%nat && (k <? length cells)%nat
    then Some v
    else nth_error cells j.
Proof.
  revert k j. induction cells as [| c cells IH]; intros k j.
  - cbn [update length]. rewrite andb_false_r. reflexivity.
  - destruct k as [| k], j as [| j]; cbn [update nth_error length];
      try reflexivity.
    rewrite IH. reflexivity.
Qed.

Lemma length_store buffer i v : length (store buffer i v) = length buffer.
Proof.
  unfold store. destruct ((0 <=? i) && (i <? Z.of_nat (length buffer)));
    [apply length_update | reflexivity].
Qed.

Lemma nth_error_store buffer i v j :
  (j < length buffer)%nat ->
  nth_error (store buffer i v) j
  = if Z.of_nat j =? i then Some (ToUint32 v) else nth_error buffer j.
Proof.
  intros Hj. unfold store.
  destruct (Z.eqb_spec (Z.of_nat j) i) as [<- | Hne].
  - destruct (Z.leb_spec 0 (Z.of_nat j)); [| lia].
    destruct (Z.ltb_spec (Z.of_nat j) (Z.of_nat (length buffer))); [| lia].
    cbn [andb].
    rewrite nth_error_update, Nat2Z.id, Nat.eqb_refl.
    destruct (Nat.ltb_spec j (length buffer)); [reflexivity | lia].
  - destruct (Z.leb_spec 0 i); [| reflexivity].
    destruct (Z.ltb_spec i (Z.of_nat (length buffer))); [| reflexivity].
    cbn [andb]. rewrite nth_error_update.
    destruct (Nat.eqb_spec j (Z.to_nat i)); [lia | reflexivity].
Qed.

Lemma writeArrayToMemory_from_length arr :
  forall i startIndex buffer,
    length (writeArrayToMemory_from i arr startIndex buffer) = length buffer.
Proof.
  induction arr as [| x arr IH]; intros i startIndex buffer;
    cbn [writeArrayToMemory_from]; [reflexivity |].
  rewrite IH. apply length_store.
Qed.

Lemma writeArrayToMemory_from_cells arr :
  forall i startIndex buffer j,
    (j < length buffer)%nat ->
    nth_error (writeArrayToMemory_from i arr startIndex buffer) j
    = if (startIndex + i <=? Z.of_nat j)
         && (Z.of_nat j <? startIndex + i + Z.of_nat (length arr))
      then option_map ToUint32
             (nth_error arr (Z.to_nat (Z.of_nat j - startIndex - i)))
      else nth_error buffer j.
Proof.
  induction arr as [| x arr IH]; intros i startIndex buffer j Hj;
    cbn [writeArrayToMemory_from].
  - cbn [length].
    destruct (Z.leb_spec (startIndex + i) (Z.of_nat j)),
      (Z.ltb_spec (Z.of_nat j) (startIndex + i + Z.of_nat 0));
      cbn [andb]; try reflexivity; lia.
  - rewrite IH by (rewrite length_store; exact Hj).
    rewrite nth_error_store by exact Hj.
    cbn [length]. rewrite Nat2Z.inj_succ.
    destruct (Z.eqb_spec (Z.of_nat j) (startIndex + i)) as [He | Hne];
      destruct (Z.leb_spec (startIndex + (i + 1)) (Z.of_nat j)),
        (Z.ltb_spec (Z.of_nat j)
           (startIndex + (i + 1) + Z.of_nat (length arr))),
        (Z.leb_spec (startIndex + i) (Z.of_nat j)),
        (Z.ltb_spec (Z.of_nat j)
           (startIndex + i + Z.succ (Z.of_nat (length arr))));
      cbn [andb]; try reflexivity; try lia.
    + replace (Z.of_nat j - startIndex - i) with 0 by lia. reflexivity.
    + replace (Z.to_nat (Z.of_nat j - startIndex - i))
        with (S (Z.to_nat (Z.of_nat j - startIndex - (i + 1)))) by lia.
      reflexivity.
Qed.

(** X25.  [writeArrayToMemory] keeps the number of cells, whatever the
    start index and the length of the array: what falls outside the view
    is dropped.  Afterwards a cell from [startIndex] on, as far as the
    array reaches, holds the element of the array for it taken modulo
    [2^32], and every other cell holds what it held before. *)
Theorem writeArrayToMemory_cells arr startIndex buffer :
  length (writeArrayToMemory arr startIndex buffer) = length buffer
  /\ forall j,
       (j < length buffer)%nat ->
       nth_error (writeArrayToMemory arr startIndex buffer) j
       = if (startIndex <=? Z.of_nat j)
            && (Z.of_nat j <? startIndex + Z.of_nat (length arr))
         then option_map ToUint32
                (nth_error arr (Z.to_nat (Z.of_nat j - startIndex)))
         else nth_error buffer j.
Proof.
  split; [apply writeArrayToMemory_from_length |].
  intros j Hj. unfold writeArrayToMemory.
  rewrite writeArrayToMemory_from_cells by exact Hj.
  rewrite Z.add_0_r, Z.sub_0_r. reflexivity.
Qed.

Lemma writeArrayToMemory_cells_witness :
  nth_error (writeArrayToMemory [Int (-4); Int 7; NaN] 2 [9; 9; 9; 9]) 3
  = Some 7.
Proof.
  rewrite (proj2 (writeArrayToMemory_cells [Int (-4); Int 7; NaN] 2
                    [9; 9; 9; 9]) 3%nat); [reflexivity | cbn; lia].
Defined.

Lemma ToInt32_ToUint32 z : ToInt32 (ToUint32 (Int z)) = ToInt32 z.
Proof.
  apply ToInt32_unique; [apply ToInt32_range |]. cbn [ToUint32].
  pose proof (ToInt32_congruent z) as Hz.
  apply Z.mod_divide in Hz; [| lia]. destruct Hz as [a Ha].
  apply Z.mod_divide; [lia |].
  exists (a - z / 2 ^ 32).
  pose proof (Z.div_mod z (2 ^ 32) ltac:(lia)). lia.
Qed.

(** X26.  A 32-bit signed integer written into a cell of the view is there
    as an unsigned 32-bit number, and read as a signed one it is the
    integer that was written: negative elements survive the unsigned
    view. *)
Theorem writeArrayToMemory_signed zs startIndex buffer i z :
  0 <= startIndex ->
  nth_error zs i = Some z ->
  - 2 ^ 31 <= z < 2 ^ 31 ->
  startIndex + Z.of_nat i < Z.of_nat (length buffer) ->
  exists cell,
    nth_error (writeArrayToMemory (map Int zs) startIndex buffer)
      (Z.to_nat (startIndex + Z.of_nat i)) = Some cell
    /\ 0 <= cell < 2 ^ 32
    /\ ToInt32 cell = z.
Proof.
  intros Hs Hz Hrange Hin.
  assert (Hi : (i < length zs)%nat)
    by (apply nth_error_Some; congruence).
  exists (ToUint32 (Int z)). split; [| split].
  - unfold writeArrayToMemory.
    rewrite writeArrayToMemory_from_cells by lia.
    rewrite length_map, Z2Nat.id, Z.add_0_r, Z.sub_0_r by lia.
    destruct (Z.leb_spec startIndex (startIndex + Z.of_nat i)); [| lia].
    destruct (Z.ltb_spec (startIndex + Z.of_nat i)
                (startIndex + Z.of_nat (length zs))); [| lia].
    cbn [andb].
    replace (startIndex + Z.of_nat i - startIndex) with (Z.of_nat i) by lia.
    rewrite Nat2Z.id, nth_error_map, Hz. reflexivity.
  - cbn [ToUint32]. apply Z.mod_pos_bound. lia.
  - rewrite ToInt32_ToUint32. now apply ToInt32_small.
Qed.

Lemma writeArrayToMemory_signed_witness :
  exists cell,
    nth_error (writeArrayToMemory (map Int [-4; -2; 0]) 1 [0; 0; 0; 0])
      (Z.to_nat (1 + Z.of_nat 1)) = Some cell
    /\ 0 <= cell < 2 ^ 32
    /\ ToInt32 cell = -2.
Proof.
  apply (writeArrayToMemory_signed [-4; -2; 0] 1 [0; 0; 0; 0] 1 (-2));
    [lia | reflexivity | lia | cbn; lia].
Defined.

(** ** Bytes only *)

Lemma byte_of_Some x b : byte_of x = Some b -> x = Int b /\ 0 <= b < 256.
Proof.
  destruct x as [z | | | |]; try discriminate. cbn [byte_of].
  destruct (Z.leb_spec 0 z), (Z.ltb_spec z 256); cbn [andb];
    try discriminate.
  intros Hsome. injection Hsome as <-. split; [reflexivity | lia].
Qed.

Lemma Uint8Array_of_bytes bytes :
  all_bytes bytes -> map Int (Uint8Array_of bytes) = bytes.
Proof.
  induction 1 as [| x bytes Hx _ IH]; [reflexivity |].
  cbn [Uint8Array_of map]. unfold Uint8Array_of in IH. rewrite IH.
  destruct (byte_of x) as [b |] eqn:Hb; [| contradiction].
  apply byte_of_Some in Hb. destruct Hb as [-> Hb]. cbn [ToUint8].
  rewrite Z.mod_small by lia. reflexivity.
Qed.

Lemma continued_all_bytes bytes : continued bytes -> all_bytes bytes.
Proof.
  induction 1 as [b Hb _ | b rest Hb _ _ IH]; constructor;
    try constructor; try exact IH; cbn [byte_of];
    destruct (Z.leb_spec 0 b), (Z.ltb_spec b 256); cbn [andb];
    try discriminate; lia.
Qed.

Lemma u31_all_bytes n bytes :
  u31 n = true -> encodeLEB128U n = Ok bytes -> all_bytes bytes.
Proof.
  destruct n as [z | | | |]; try discriminate. cbn [u31]. intros H He.
  destruct (encodeLEB128U_roundtrip_31 z) as (bytes' & He' & Hc & _); [lia |].
  rewrite He in He'. injection He' as <-. now apply continued_all_bytes.
Qed.

Lemma s32_all_bytes n bytes :
  s32 n = true -> encodeLEB128S n = Ok bytes -> all_bytes bytes.
Proof.
  destruct n as [z | | | |]; try discriminate. cbn [s32]. intros H He.
  destruct (encodeLEB128S_roundtrip z) as (bytes' & He' & Hc & _); [lia |].
  rewrite He in He'. injection He' as <-. now apply continued_all_bytes.
Qed.

Lemma flatMap_all_bytes {T : Type} (f : T -> outcome (list number)) items :
  Forall (fun item => forall chunk, f item = Ok chunk -> all_bytes chunk)
    items ->
  forall bytes, flatMap f items = Ok bytes -> all_bytes bytes.
Proof.
  induction 1 as [| item items Hitem _ IH]; intros bytes H;
    cbn [flatMap] in H.
  - injection H as <-. constructor.
  - destruct (f item) as [head | |] eqn:Hhead; cbn [bind] in H;
      try discriminate.
    destruct (flatMap f items) as [tail | |] eqn:Htail; cbn [bind] in H;
      try discriminate.
    injection H as <-. apply Forall_app. split; [now apply Hitem | now apply IH].
Qed.

Lemma opcode_byte instruction : byte_of (opcode instruction) <> None.
Proof. destruct instruction; discriminate. Qed.

Ltac leaf_bytes H :=
  match type of H with
  | bind ?c _ = Ok _ =>
      let chunk := fresh "chunk" in
      let Hc := fresh "Hc" in
      destruct c as [chunk | |] eqn:Hc; cbn [bind] in H; try discriminate H
  end.

Lemma encodeInstruction_all_bytes instruction :
  encodable instruction = true ->
  forall bytes, encodeInstruction instruction = Ok bytes -> all_bytes bytes.
Proof.
  induction instruction as [i Htag | t thenInstrs elseInstrs Hthen Helse]
    using Instruction_nested_ind; intros Henc bytes H.
  - pose proof (opcode_byte i) as Hop.
    destruct i; try (contradiction Htag; reflexivity);
      cbn [encodeInstruction encodable] in H, Henc;
      try (injection H as <-; repeat constructor; exact Hop).
    + apply andb_true_iff in Henc. destruct Henc as [Ha Ho].
      leaf_bytes H. leaf_bytes H. injection H as <-.
      constructor; [exact Hop |]. apply Forall_app.
      split; (eapply u31_all_bytes; [| eassumption]; assumption).
    + leaf_bytes H. injection H as <-.
      constructor; [exact Hop |]. eapply s32_all_bytes; eassumption.
    + leaf_bytes H. injection H as <-.
      constructor; [exact Hop |]. eapply u31_all_bytes; eassumption.
    + leaf_bytes H. injection H as <-.
      constructor; [exact Hop |]. eapply u31_all_bytes; eassumption.
    + leaf_bytes H. injection H as <-.
      constructor; [exact Hop |]. eapply u31_all_bytes; eassumption.
    + leaf_bytes H. injection H as <-.
      constructor; [exact Hop |]. eapply u31_all_bytes; eassumption.
    + leaf_bytes H. injection H as <-.
      constructor; [exact Hop |]. eapply u31_all_bytes; eassumption.
  - cbn [encodeInstruction encodable] in H, Henc.
    apply andb_true_iff in Henc. destruct Henc as [Ht He].
    leaf_bytes H. leaf_bytes H. injection H as <-.
    assert (Hsub : forall l,
               Forall (fun i => encodable i = true ->
                                forall b, encodeInstruction i = Ok b ->
                                          all_bytes b) l ->
               forallb encodable l = true ->
               Forall (fun i => forall b, encodeInstruction i = Ok b ->
                                          all_bytes b) l).
    { induction 1 as [| i l Hi _ IHl]; intros Hl; constructor;
        cbn [forallb] in Hl; apply andb_true_iff in Hl; tauto. }
    constructor; [discriminate |].
    constructor; [destruct t as [[] | []]; discriminate |].
    apply Forall_app. split.
    + eapply flatMap_all_bytes; [| eassumption]; apply Hsub; assumption.
    + constructor; [discriminate |]. apply Forall_app. split.
      * eapply flatMap_all_bytes; [| eassumption]; apply Hsub; assumption.
      * repeat constructor. discriminate.
Qed.

(** X27.  The encoding of instructions whose immediates are in range is
    made of bytes only, so that the [Uint8Array] the module is put into
    holds exactly the numbers the encoder returned. *)
Theorem encodeInstructions_bytes instrs bytes :
  forallb encodable instrs = true ->
  flatMap encodeInstruction instrs = Ok bytes ->
  all_bytes bytes /\ map Int (Uint8Array_of bytes) = bytes.
Proof.
  intros Henc H.
  assert (Hall : all_bytes bytes).
  { eapply flatMap_all_bytes; [| exact H].
    rewrite Forall_forall. intros i Hi.
    apply encodeInstruction_all_bytes.
    rewrite forallb_forall in Henc. now apply Henc. }
  split; [exact Hall | now apply Uint8Array_of_bytes].
Qed.

Lemma encodeInstructions_bytes_witness :
  all_bytes [Int 0x20; Int 0xac; Int 0x02; Int 0x1a]
  /\ map Int (Uint8Array_of [Int 0x20; Int 0xac; Int 0x02; Int 0x1a])
     = [Int 0x20; Int 0xac; Int 0x02; Int 0x1a].
Proof.
  apply (encodeInstructions_bytes [iLocalGet (Int 300); iDrop]
           [Int 0x20; Int 0xac; Int 0x02; Int 0x1a]); reflexivity.
Defined.

(** ** The type section *)

(** X28.  The type section cannot fail: [encodeTypeSection] returns on
    every list of function types, and its first byte is the id 1. *)
Theorem encodeTypeSection_returns types :
  exists rest, encodeTypeSection types = Ok (Int 1 :: rest).
Proof.
  unfold encodeTypeSection, encodeSection.
  assert (Hvec : forall ts : list ValueType,
             returns (encodeVector ts
                        (fun a => Ok [Int (ValueType_value a)]))).
  { intros ts. unfold encodeVector.
    destruct (leb_fuel_enough_U (Z.of_nat (length ts))) as [len ->].
    cbn [bind].
    change (fun item : ValueType => Ok [Int (ValueType_value item)])
      with (fun a : ValueType => Ok [Int (ValueType_value a)]).
    rewrite flatMap_ValueType. apply returns_Ok. }
  assert (Hft : forall ft, returns (encodeFuncType ft)).
  { intros ft. unfold encodeFuncType.
    destruct (Hvec (paramTypes ft)) as [ps ->].
    destruct (Hvec (returnTypes ft)) as [rs ->]. apply returns_Ok. }
  assert (Hflat : returns (flatMap encodeFuncType types)).
  { apply (flatMap_returns_iff encodeFuncType (fun _ => true)).
    - rewrite Forall_forall. intros ft _. split; [reflexivity | intros _; apply Hft].
    - induction types; cbn; auto. }
  destruct Hflat as [body Hbody]. unfold encodeVector.
  destruct (leb_fuel_enough_U (Z.of_nat (length types))) as [len ->].
  cbn [bind]. change (fun item : FuncType => encodeFuncType item)
    with encodeFuncType.
  rewrite Hbody. cbn [bind].
  destruct (leb_fuel_enough_U (Z.of_nat (length (len ++ body)))) as [sz ->].
  cbn [bind]. eauto.
Qed.
